(** * Road impact on forest metrics: reference matching and background estimation

    A shallow embedding of [CalculatingRoadimpact.py]:
    - [is_valid_value], [inverse_distance_weighting] and
      [calculate_temporal_trends] are the three helper functions of the
      script;
    - [process_point] is the body of the [for _, row in table1.iterrows()]
      loop of [process_forest_metrics], and [process_rows] is the loop;
    - [process_forest_metrics] is the batch function, from the merged table
      to the two collections it writes.

    Numbers.  The script computes on NumPy [float64] values.  They are
    modelled by [num]: the rationals (exact arithmetic, no rounding and no
    overflow) together with NaN and the two infinities, with the IEEE rules
    for the special values (division by zero, [inf - inf], comparisons
    with NaN).  Signed zeros are not distinguished.  The theorems are
    therefore about formulas, order and bounds, which rounding leaves
    alone, and not about the last digits of a result; where a statement
    needs the absence of overflow it says so ([float64_max]).

    Library routines.  [np.sqrt] and [np.argsort] are parameters of the
    development ([np_sqrt], [argsort]); what is assumed about them is
    stated where it is used.  [pd.read_csv], [pd.merge] and [to_csv] are
    outside the model: the batch function starts from the merged rows.

    The module [CalculatingCEI] embeds [process_data] of
    [CalculatingCEI.py], which computes the index the matching relies on;
    scikit-learn's scaling and PCA are a parameter there
    ([composite_index]). *)

From Stdlib Require Import QArith Qabs Qround Qpower Lqa Lia ZArith.
From Stdlib Require Import Permutation Sorted.
From stdpp Require Import gmap strings list fin_maps sorting.

Local Open Scope Q_scope.

(** ** Numbers *)

Inductive num : Type :=
| NaN : num
| PInf : num
| NInf : num
| Fin (q : Q) : num.

Definition Qltb (a b : Q) : bool := negb (Qle_bool b a).

Definition isnan (x : num) : bool :=
  match x with NaN => true | _ => false end.

Definition isinf (x : num) : bool :=
  match x with PInf | NInf => true | _ => false end.

Definition fadd (x y : num) : num :=
  match x, y with
  | NaN, _ | _, NaN => NaN
  | PInf, NInf | NInf, PInf => NaN
  | PInf, _ | _, PInf => PInf
  | NInf, _ | _, NInf => NInf
  | Fin a, Fin b => Fin (a + b)
  end.

Definition fsub (x y : num) : num :=
  match x, y with
  | NaN, _ | _, NaN => NaN
  | PInf, PInf | NInf, NInf => NaN
  | PInf, _ | _, NInf => PInf
  | NInf, _ | _, PInf => NInf
  | Fin a, Fin b => Fin (a - b)
  end.

(** The infinity with the sign of [q], for [q] not zero. *)
Definition inf_of_sign (q : Q) : num :=
  if Qltb 0 q then PInf else NInf.

Definition fmul (x y : num) : num :=
  match x, y with
  | NaN, _ | _, NaN => NaN
  | PInf, PInf | NInf, NInf => PInf
  | PInf, NInf | NInf, PInf => NInf
  | PInf, Fin b | Fin b, PInf =>
      if Qeq_bool b 0 then NaN else inf_of_sign b
  | NInf, Fin b | Fin b, NInf =>
      if Qeq_bool b 0 then NaN else inf_of_sign (- b)
  | Fin a, Fin b => Fin (a * b)
  end.

(** [x / y] under [np.errstate(divide='ignore', invalid='ignore')]:
    a non-zero number over zero is an infinity, zero over zero is NaN. *)
Definition fdiv (x y : num) : num :=
  match x, y with
  | NaN, _ | _, NaN => NaN
  | PInf, PInf | PInf, NInf | NInf, PInf | NInf, NInf => NaN
  | PInf, Fin b => if Qltb b 0 then NInf else PInf
  | NInf, Fin b => if Qltb b 0 then PInf else NInf
  | Fin _, PInf | Fin _, NInf => Fin 0
  | Fin a, Fin b =>
      if Qeq_bool b 0
      then (if Qeq_bool a 0 then NaN else inf_of_sign a)
      else Fin (a / b)
  end.

Definition fabs (x : num) : num :=
  match x with
  | NaN => NaN
  | PInf | NInf => PInf
  | Fin q => Fin (Qabs q)
  end.

(** [x < y]; false as soon as one side is NaN. *)
Definition fltb (x y : num) : bool :=
  match x, y with
  | NaN, _ | _, NaN => false
  | _, NInf => false
  | NInf, _ => true
  | PInf, _ => false
  | Fin _, PInf => true
  | Fin a, Fin b => Qltb a b
  end.

(** [x <= y]. *)
Definition fleb (x y : num) : bool :=
  match x, y with
  | NaN, _ | _, NaN => false
  | NInf, _ => true
  | _, PInf => true
  | _, NInf => false
  | PInf, _ => false
  | Fin a, Fin b => Qle_bool a b
  end.

(** [x == y]; NaN is equal to nothing. *)
Definition feqb (x y : num) : bool :=
  match x, y with
  | PInf, PInf | NInf, NInf => true
  | Fin a, Fin b => Qeq_bool a b
  | _, _ => false
  end.

(** [x ** n] for an integer exponent [n >= 0]; [x ** 0] is one, also for
    NaN and the infinities. *)
Fixpoint fpow (x : num) (n : nat) : num :=
  match n with
  | O => Fin 1
  | S O => x
  | S n' => fmul x (fpow x n')
  end.

Definition of_Z (z : Z) : num := Fin (inject_Z z).
Definition of_nat (n : nat) : num := of_Z (Z.of_nat n).

(** Equality of numbers as values: the same special value, or rationals
    that are equal as fractions. *)
Definition feq (x y : num) : Prop :=
  match x, y with
  | NaN, NaN | PInf, PInf | NInf, NInf => True
  | Fin a, Fin b => a == b
  | _, _ => False
  end.

Infix "=f=" := feq (at level 70, no associativity).

(** ** Constants of the script *)

Definition THRESHOLD_DISTANCE : num := Fin 50000.
Definition TOP_PERCENTILE : Q := 0.2.
Definition MIN_REF_POINTS : nat := 3.
Definition IDW_POWER : nat := 2.
(** [INVALID_VALUES = [-9999, np.nan, None]]; among numbers None has no
    counterpart. *)
Definition INVALID_VALUES : list num := [Fin (-9999); NaN].

(** ** NumPy and pandas operations used by the script *)

(** [a[mask]] for a boolean mask: the entries at the true positions;
    IndexError (here [None]) when the lengths differ. *)
Fixpoint mask_select {A : Type} (a : list A) (mask : list bool)
  : option (list A) :=
  match a, mask with
  | [], [] => Some []
  | x :: a', b :: mask' =>
      rest ← mask_select a' mask';
      Some (if b : bool then x :: rest else rest)
  | _, _ => None
  end.

(** [a[mask]] for a mask that is a Python list of booleans: NumPy reads a
    list with entries as a boolean mask, and the empty list as an empty
    list of positions, which selects nothing from any array and never
    raises. *)
Definition list_mask_select {A : Type} (a : list A) (mask : list bool)
  : option (list A) :=
  match mask with
  | [] => Some []
  | _ :: _ => mask_select a mask
  end.

(** [np.where(mask)[0]]: the positions of the true entries, counted from
    [start]. *)
Fixpoint np_where_from (start : nat) (mask : list bool) : list nat :=
  match mask with
  | [] => []
  | b :: mask' =>
      if b then start :: np_where_from (S start) mask'
      else np_where_from (S start) mask'
  end.

Definition np_where (mask : list bool) : list nat := np_where_from 0 mask.

(** [a[indices]] and [df.iloc[indices]] for a list of positions;
    IndexError when a position is out of range. *)
Definition iloc {A : Type} (a : list A) (indices : list nat)
  : option (list A) :=
  mapM (fun i => a !! i) indices.

(** [np.sum]: the entries added from the left (in exact arithmetic the
    order of the additions does not change the value). *)
Definition np_sum (a : list num) : num := foldl fadd (Fin 0) a.

(** [np.mean]. *)
Definition np_mean (a : list num) : num :=
  fdiv (np_sum a) (of_nat (length a)).

(** [np.minimum]: the first argument when it is smaller or NaN. *)
Definition np_minimum (x y : num) : num :=
  if fltb x y || isnan x then x else y.

(** [a.min()]; ValueError on an empty array. *)
Definition np_min (a : list num) : option num :=
  match a with
  | [] => None
  | x :: a' => Some (foldl np_minimum x a')
  end.

(** [int(q)]: truncation towards zero. *)
Definition py_int (q : Q) : Z := Z.quot (Qnum q) (Zpos (Qden q)).

(** [s.endswith(suffix)] and [s[:-4]]. *)
Definition endswith (s suffix : string) : bool :=
  let n := String.length s in
  let m := String.length suffix in
  (m <=? n)%nat && String.eqb (String.substring (n - m)%nat m s) suffix.

Definition drop_last4 (s : string) : string :=
  String.substring 0 (String.length s - 4)%nat s.

(** ** The helper functions *)

(** [value in values]: equal ([==]) to one of the entries. *)
Definition py_in (value : num) (values : list num) : bool :=
  existsb (feqb value) values.

(** [value not in INVALID_VALUES and not pd.isna(value)]. *)
Definition is_valid_value (value : num) : bool :=
  negb (py_in value INVALID_VALUES) && negb (isnan value).

(** Lines 51 to 53: the weights of the valid distances, the infinite
    ones set to zero. *)
Definition idw_weights (valid_distances : list num) (power : nat)
  : list num :=
  let weights := map (fun d => fdiv (Fin 1) (fpow d power)) valid_distances in
  map (fun w => if isinf w then Fin 0 else w) weights.

Definition inverse_distance_weighting
  (values distances : list num) (power : nat) : option num :=
  let valid_mask := map is_valid_value values in
  valid_values ← list_mask_select values valid_mask;
  valid_distances ← list_mask_select distances valid_mask;
  if (length valid_values =? 0)%nat then Some NaN
  else
    let weights := idw_weights valid_distances power in
    let total_weight := np_sum weights in
    if fltb (Fin 0) total_weight
    then Some (fdiv (np_sum (zip_with fmul valid_values weights)) total_weight)
    else Some (np_mean valid_values).

(** Line 65: the variable name without its year suffix. *)
Definition base_var_of (var : string) : string :=
  if endswith var "2000" || endswith var "2020" then drop_last4 var
  else var.

(** A result row is a Python dict from column names to numbers. *)
Abbreviation row_dict := (gmap string num).

(** The body of the loop of [calculate_temporal_trends] for one variable;
    [row[key]] raises KeyError (here [None]) on a missing key, and the
    second lookup is only made when the first value is valid. *)
Definition trend_of_var (row : row_dict) (trends : row_dict) (var : string)
  : option row_dict :=
  let base_var := base_var_of var in
  let var2000 := base_var +:+ "2000_AC" in
  let var2020 := base_var +:+ "2020_AC" in
  v2020 ← row !! var2020;
  if is_valid_value v2020 then
    v2000 ← row !! var2000;
    if is_valid_value v2000 then
      let trends := <[base_var +:+ "_AC_trend" := fsub v2020 v2000]> trends in
      let denominator := fadd (fabs v2000) (fabs v2020) in
      if fltb (Fin 0) denominator
      then Some (<[base_var +:+ "_RC_trend" :=
                     fmul (fdiv (fsub v2020 v2000) denominator) (Fin 100)]>
                   trends)
      else Some (<[base_var +:+ "_RC_trend" := NaN]> trends)
    else
      Some (<[base_var +:+ "_RC_trend" := NaN]>
              (<[base_var +:+ "_AC_trend" := NaN]> trends))
  else
    Some (<[base_var +:+ "_RC_trend" := NaN]>
            (<[base_var +:+ "_AC_trend" := NaN]> trends)).

Fixpoint trends_loop (row : row_dict) (trends : row_dict)
  (target_vars : list string) : option row_dict :=
  match target_vars with
  | [] => Some trends
  | var :: rest =>
      trends' ← trend_of_var row trends var;
      trends_loop row trends' rest
  end.

Definition calculate_temporal_trends (row : row_dict)
  (target_vars : list string) : option row_dict :=
  trends_loop row ∅ target_vars.

(** ** The tables *)

(** One row of the merged table: the columns the script reads, with an
    integer [pointID]. *)
Record PointRec : Type := {
  pointID : Z;
  CEI : num;
  X : num;
  Y : num;
  Windowflag : num;
  Buffer_type : num;
  NTL2000 : num;
  NTL2020 : num;
  ForestChange : num;
  Plantations : num;
  Area2000 : num;
  Area2020 : num;
  H2000 : num;
  H2020 : num;
  PD2000 : num;
  PD2020 : num;
  NPP2000 : num;
  NPP2020 : num
}.

Definition target_columns : list string :=
  ["Area2000"; "Area2020"; "H2000"; "H2020"; "PD2000"; "PD2020";
   "NPP2000"; "NPP2020"].

Definition trend_vars : list string := ["Area"; "H"; "PD"; "NPP"].

(** [row[col]] for a metric column; KeyError on any other name. *)
Definition row_get (row : PointRec) (col : string) : option num :=
  if String.eqb col "Area2000" then Some (Area2000 row)
  else if String.eqb col "Area2020" then Some (Area2020 row)
  else if String.eqb col "H2000" then Some (H2000 row)
  else if String.eqb col "H2020" then Some (H2020 row)
  else if String.eqb col "PD2000" then Some (PD2000 row)
  else if String.eqb col "PD2020" then Some (PD2020 row)
  else if String.eqb col "NPP2000" then Some (NPP2000 row)
  else if String.eqb col "NPP2020" then Some (NPP2020 row)
  else None.

(** [records[col].values]. *)
Definition column (records : list PointRec) (col : string)
  : option (list num) :=
  mapM (fun r => row_get r col) records.

(** One line of the skip ledger. *)
Record SkipRecord : Type := {
  skip_pointID : Z;
  skip_Reason : string
}.

(** Lines 142 to 145: the skip record of a treatment point. *)
Definition skip_record (row : PointRec) : SkipRecord :=
  {| skip_pointID := pointID row;
     skip_Reason := "Not enough reference points" |}.

(** What one treatment point adds to the two collections. *)
Inductive outcome : Type :=
| Skipped (s : SkipRecord)
| Result (r : row_dict).

(** The references selected for one treatment point (lines 136 to 153):
    the distances, index differences and rows within the threshold, their
    ranking, and the top rows with their distances. *)
Record Selection : Type := {
  filtered_distances : list num;
  filtered_cindex_diffs : list num;
  filtered_table2 : list PointRec;
  sorted_indices : list nat;
  top_records : list PointRec;
  top_distances : list num
}.

(** What the batch function leaves behind: [Failed] when it returns
    False (nothing is written), otherwise the two collections. *)
Inductive run : Type :=
| Failed
| Completed (result_rows : list row_dict) (skipped_rows : list SkipRecord).

(** Lines 186 to 195: the absolute and the relative change of one metric. *)
Definition impact_scores (treatment bg_mean : num) : num * num :=
  if is_valid_value treatment && is_valid_value bg_mean then
    let denominator := fadd (fabs bg_mean) (fabs treatment) in
    (fsub treatment bg_mean,
     if negb (feqb denominator (Fin 0))
     then fmul (fdiv (fsub treatment bg_mean) denominator) (Fin 100)
     else NaN)
  else (NaN, NaN).

Section Batch.

(** [np.sqrt] and [np.argsort] (default kind). *)
Variable np_sqrt : num -> num.
Variable argsort : list num -> list nat.

(** Lines 129 to 132, for one candidate. *)
Definition distance_to (row c : PointRec) : num :=
  np_sqrt (fadd (fpow (fsub (X c) (X row)) 2) (fpow (fsub (Y c) (Y row)) 2)).

(** [euclidean_distance] (lines 25 to 27). *)
Definition euclidean_distance (x1 y1 x2 y2 : num) : num :=
  np_sqrt (fadd (fpow (fsub x2 x1) 2) (fpow (fsub y2 y1) 2)).

(** [max(MIN_REF_POINTS, int(len(filtered_table2) * TOP_PERCENTILE))]. *)
Definition n_top_of (len : nat) : Z :=
  Z.max (Z.of_nat MIN_REF_POINTS)
        (py_int (inject_Z (Z.of_nat len) * TOP_PERCENTILE)).

(** Lines 129 to 153; [Some None] when the point has to be skipped. *)
Definition select_references (row : PointRec) (table2 : list PointRec)
  : option (option Selection) :=
  let distances := map (distance_to row) table2 in
  let cindex_diffs := map (fun c => fabs (fsub (CEI c) (CEI row))) table2 in
  let valid_mask := map (fun d => fltb d THRESHOLD_DISTANCE) distances in
  filtered_distances ← mask_select distances valid_mask;
  filtered_cindex_diffs ← mask_select cindex_diffs valid_mask;
  filtered_table2 ← iloc table2 (np_where valid_mask);
  if (length filtered_table2 <? MIN_REF_POINTS)%nat then Some None
  else
    let sorted_indices := argsort filtered_cindex_diffs in
    let n_top := n_top_of (length filtered_table2) in
    let top_indices := take (Z.to_nat n_top) sorted_indices in
    top_records ← iloc filtered_table2 top_indices;
    top_distances ← iloc filtered_distances top_indices;
    Some (Some {| filtered_distances := filtered_distances;
                  filtered_cindex_diffs := filtered_cindex_diffs;
                  filtered_table2 := filtered_table2;
                  sorted_indices := sorted_indices;
                  top_records := top_records;
                  top_distances := top_distances |}).

(** Lines 177 to 180: the background estimate of one metric. *)
Definition background_of (sel : Selection) (col : string) : option num :=
  ref_values ← column (top_records sel) col;
  inverse_distance_weighting ref_values (top_distances sel) IDW_POWER.

(** The body of [for col in target_columns] (lines 177 to 195). *)
Definition score_column (row : PointRec) (sel : Selection)
  (result_row : row_dict) (col : string) : option row_dict :=
  bg_mean ← background_of sel col;
  treatment ← row_get row col;
  let result_row := <[col +:+ "_road" := treatment]> result_row in
  let result_row := <[col +:+ "_ref" := bg_mean]> result_row in
  let '(ac, rc) := impact_scores treatment bg_mean in
  Some (<[col +:+ "_RC" := rc]> (<[col +:+ "_AC" := ac]> result_row)).

Fixpoint score_columns (row : PointRec) (sel : Selection)
  (result_row : row_dict) (cols : list string) : option row_dict :=
  match cols with
  | [] => Some result_row
  | col :: rest =>
      result_row' ← score_column row sel result_row col;
      score_columns row sel result_row' rest
  end.

(** Lines 165 to 173: the dict the result row starts as. *)
Definition initial_result_row (row : PointRec) (sel : Selection)
  (cindex_diff nearest : num) : row_dict :=
  <["Ref_Points_Used" := of_nat (length (top_records sel))]>
  (<["Nearest_Ref_Distance" := nearest]>
  (<["CEI_Diff" := cindex_diff]>
  (<["Buffer_type" := Buffer_type row]>
  (<["Y" := Y row]>
  (<["X" := X row]>
  (<["pointID" := of_Z (pointID row)]> ∅)))))).

(** Lines 155 to 201: the result row of a point with its references. *)
Definition build_result_row (row : PointRec) (sel : Selection)
  : option row_dict :=
  bg_cindex ← inverse_distance_weighting
                (map CEI (top_records sel)) (top_distances sel) IDW_POWER;
  let cindex_diff :=
    if negb (isnan bg_cindex) then fsub (CEI row) bg_cindex else NaN in
  nearest ← np_min (filtered_distances sel);
  let result_row := initial_result_row row sel cindex_diff nearest in
  result_row ← score_columns row sel result_row target_columns;
  temporal_trends ← calculate_temporal_trends result_row trend_vars;
  Some (temporal_trends ∪ result_row).

(** The body of the loop over [table1] (lines 127 to 201). *)
Definition process_point (row : PointRec) (table2 : list PointRec)
  : option outcome :=
  selection ← select_references row table2;
  match selection with
  | None => Some (Skipped (skip_record row))
  | Some sel =>
      result_row ← build_result_row row sel;
      Some (Result result_row)
  end.

(** The loop, with the two lists it appends to. *)
Fixpoint process_rows (table1 table2 : list PointRec)
  (result_rows : list row_dict) (skipped_rows : list SkipRecord)
  : option (list row_dict * list SkipRecord) :=
  match table1 with
  | [] => Some (result_rows, skipped_rows)
  | row :: rest =>
      o ← process_point row table2;
      match o with
      | Skipped s => process_rows rest table2 result_rows (skipped_rows ++ [s])
      | Result r => process_rows rest table2 (result_rows ++ [r]) skipped_rows
      end
  end.

Definition is_treatment (r : PointRec) : bool :=
  feqb (Windowflag r) (Fin 1) && fltb (Fin 1) (Buffer_type r).

Definition is_candidate (r : PointRec) : bool :=
  fleb (Buffer_type r) (Fin 1)
  && fltb (NTL2000 r) (Fin 1)
  && fltb (NTL2020 r) (Fin 1)
  && fltb (fabs (ForestChange r)) (Fin 10)
  && fltb (fabs (Plantations r)) (Fin 10).

(** [process_forest_metrics], from the merged table on: an exception in
    the loop is caught by the handler of line 239, which returns False. *)
Definition process_forest_metrics (merged_df : list PointRec) : run :=
  let table1 := List.filter is_treatment merged_df in
  let table2 := List.filter is_candidate merged_df in
  match table1, table2 with
  | [], _ | _, [] => Failed
  | _, _ =>
      match process_rows table1 table2 [] [] with
      | None => Failed
      | Some (result_rows, skipped_rows) => Completed result_rows skipped_rows
      end
  end.

End Batch.

(** ** What is assumed of [np.argsort]

    The script calls [np.argsort] without a [kind], that is with NumPy's
    default quicksort.  NumPy documents for it that the result is a
    permutation of the positions that puts the keys in ascending order,
    NaN last; it does not document the order of equal keys. *)

(** The order [np.sort] arranges keys in: ascending, NaN last. *)
Definition sort_leb (x y : num) : bool := isnan y || fleb x y.

(** The positions [indices] list the keys in ascending order. *)
Definition ascending (keys : list num) (indices : list nat) : Prop :=
  forall p q i j ki kj,
    (p < q)%nat ->
    indices !! p = Some i -> indices !! q = Some j ->
    keys !! i = Some ki -> keys !! j = Some kj ->
    sort_leb ki kj = true.

Definition argsort_contract (argsort : list num -> list nat) : Prop :=
  forall keys,
    Permutation (argsort keys) (seq 0 (length keys))
    /\ ascending keys (argsort keys).

(** The key at position [i] sorts before or with the key at [j]. *)
Definition key_le (keys : list num) (i j : nat) : Prop :=
  sort_leb (nth i keys NaN) (nth j keys NaN) = true.

(** Equal keys keep their original order: what a stable sort adds. *)
Definition ties_in_original_order (keys : list num) (indices : list nat)
  : Prop :=
  forall p q i j ki kj,
    (p < q)%nat ->
    indices !! p = Some i -> indices !! q = Some j ->
    keys !! i = Some ki -> keys !! j = Some kj ->
    feqb ki kj = true ->
    (i < j)%nat.




(** Two sorting routines that meet the contract: insertion of the
    positions, from the last to the first, into the sorted positions.
    [before ki kj] tells whether position [i] goes in front of [j]. *)
Fixpoint insert_index (before : num -> num -> bool) (keys : list num)
  (i : nat) (sorted : list nat) : list nat :=
  match sorted with
  | [] => [i]
  | j :: rest =>
      if before (nth i keys NaN) (nth j keys NaN)
      then i :: j :: rest
      else j :: insert_index before keys i rest
  end.

Definition insertion_argsort (before : num -> num -> bool)
  (keys : list num) : list nat :=
  foldr (insert_index before keys) [] (seq 0 (length keys)).

(** Equal keys stay in their original order ... *)
Definition stable_argsort : list num -> list nat :=
  insertion_argsort sort_leb.

(** ... or come out in the opposite order. *)
Definition reversing_argsort : list num -> list nat :=
  insertion_argsort (fun x y => negb (sort_leb y x)).

(** A square root on the rationals for the examples: exact on the squares
    of rationals, rounded down otherwise. *)
Definition sqrt_floor (x : num) : num :=
  match x with
  | NaN | NInf => NaN
  | PInf => PInf
  | Fin q =>
      if Qltb q 0 then NaN
      else Fin (Z.sqrt (Qnum q * Zpos (Qden q)) # Qden q)
  end.

(** ** The loop as a transition system *)

Section Transitions.

Variable np_sqrt : num -> num.
Variable argsort : list num -> list nat.





End Transitions.

(** ** The Inverse-Distance Aggregator in the words of the specification *)

Definition is_finite (x : num) : bool := negb (isnan x) && negb (isinf x).

(** A distance: a number that is not negative. *)
Definition is_distance (d : num) : bool :=
  match d with
  | Fin q => Qle_bool 0 q
  | _ => false
  end.

(** The weight of an entry is [1 / distance^exponent], forced to zero
    when that is not finite. *)
Definition spec_weight (exponent : nat) (distance : num) : num :=
  let w := fdiv (Fin 1) (fpow distance exponent) in
  if is_finite w then w else Fin 0.

(** The entries (value, distance) whose value is neither missing nor a
    sentinel. *)
Definition valid_entries (values distances : list num) : list (num * num) :=
  List.filter (fun e => is_valid_value (fst e)) (zip values distances).

(** The sum of the terms, taken one after the other onto [start], and
    the arithmetic mean: the sum over the number of terms. *)
Fixpoint sum_from (start : num) (terms : list num) : num :=
  match terms with
  | [] => start
  | x :: rest => sum_from (fadd start x) rest
  end.

Definition spec_sum (terms : list num) : num := sum_from (Fin 0) terms.

Definition spec_mean (values : list num) : num :=
  fdiv (spec_sum values) (of_nat (length values)).

(** Undefined without valid entries; the plain mean of the valid values
    when the total weight is zero; otherwise the weighted average. *)
Definition spec_aggregate (exponent : nat) (values distances : list num)
  : num :=
  let entries := valid_entries values distances in
  let weight e := spec_weight exponent (snd e) in
  match entries with
  | [] => NaN
  | _ :: _ =>
      let total := spec_sum (map weight entries) in
      if feqb total (Fin 0)
      then spec_mean (map fst entries)
      else fdiv (spec_sum (map (fun e => fmul (fst e) (weight e)) entries))
                total
  end.

(** The values lines 70 to 81 store for one variable, from the two
    absolute changes that were looked up: the trend of the absolute change
    and the trend of the relative change. *)
Definition trend_values (ac2000 ac2020 : num) : num * num :=
  if is_valid_value ac2020 && is_valid_value ac2000 then
    let denominator := fadd (fabs ac2000) (fabs ac2020) in
    (fsub ac2020 ac2000,
     if fltb (Fin 0) denominator
     then fmul (fdiv (fsub ac2020 ac2000) denominator) (Fin 100)
     else NaN)
  else (NaN, NaN).

(** Notions the statements about the selection use: the candidates
    within the threshold of a treatment point, in the order of the pool,
    and the index difference of a candidate. *)
Definition within_threshold (np_sqrt : num -> num) (row c : PointRec)
  : bool :=
  fltb (distance_to np_sqrt row c) THRESHOLD_DISTANCE.

Definition kept_candidates (np_sqrt : num -> num) (row : PointRec)
  (table2 : list PointRec) : list PointRec :=
  List.filter (within_threshold np_sqrt row) table2.

(** The treatment point has fewer candidates within the threshold than
    the minimum. *)
Definition too_few (np_sqrt : num -> num) (table2 : list PointRec)
  (row : PointRec) : bool :=
  (length (kept_candidates np_sqrt row table2) <? MIN_REF_POINTS)%nat.

Definition index_difference (row c : PointRec) : num :=
  fabs (fsub (CEI c) (CEI row)).


(** The four names [score_column] writes for a metric. *)
Definition column_keys (col : string) : list string :=
  [col +:+ "_road"; col +:+ "_ref"; col +:+ "_AC"; col +:+ "_RC"].

(** The two trend entries of a base variable are those of its absolute
    changes in [row]. *)
Definition trends_agree_with (row trends : row_dict) (base : string) : Prop :=
  forall ac2000 ac2020,
    row !! (base +:+ "2000_AC") = Some ac2000 ->
    row !! (base +:+ "2020_AC") = Some ac2020 ->
    trends !! (base +:+ "_AC_trend") = Some (fst (trend_values ac2000 ac2020))
    /\ trends !! (base +:+ "_RC_trend")
       = Some (snd (trend_values ac2000 ac2020)).

(** The names [calculate_temporal_trends] writes for its variables. *)
Definition trend_keys_of (vars : list string) : list string :=
  concat (map (fun var => [base_var_of var +:+ "_AC_trend";
                           base_var_of var +:+ "_RC_trend"]) vars).

(** Two numbers agree to within [tol]. *)
Definition approx (x y tol : Q) : Prop := Qabs (x - y) <= tol.

(** The cell [key] of the result row of an outcome. *)
Definition result_cell (o : option outcome) (key : string) : option num :=
  match o with
  | Some (Result r) => r !! key
  | _ => None
  end.

(** ** Example tables *)

(** A control point: outside every buffer, dark, unchanged forest. *)
Definition candidate (id : Z) (x y cei : Q) : PointRec :=
  {| pointID := id; CEI := Fin cei; X := Fin x; Y := Fin y;
     Windowflag := Fin 0; Buffer_type := Fin 0;
     NTL2000 := Fin 0; NTL2020 := Fin 0;
     ForestChange := Fin 0; Plantations := Fin 0;
     Area2000 := Fin 0; Area2020 := Fin 4;
     H2000 := Fin 12; H2020 := Fin 14;
     PD2000 := Fin 3; PD2020 := NaN;
     NPP2000 := Fin (-9999); NPP2020 := Fin 7 |}.

(** A road-side point. *)
Definition treatment (id : Z) (x y cei : Q) : PointRec :=
  {| pointID := id; CEI := Fin cei; X := Fin x; Y := Fin y;
     Windowflag := Fin 1; Buffer_type := Fin 2;
     NTL2000 := Fin 5; NTL2020 := Fin 6;
     ForestChange := Fin 0; Plantations := Fin 0;
     Area2000 := Fin 10; Area2020 := Fin 8;
     H2000 := Fin 9; H2020 := Fin 9;
     PD2000 := Fin 2; PD2020 := Fin 2;
     NPP2000 := Fin 5; NPP2020 := Fin 6 |}.

(** Five control points: at distances 1, 5, 10, 5 and 60000 of the
    origin, the nearest with the largest index difference to 0.5. *)
Definition ex_table2 : list PointRec :=
  [candidate 10 0 1 0.9; candidate 11 3 4 0.5; candidate 12 6 8 0.6;
   candidate 13 0 5 0.3; candidate 14 60000 0 0.5].

(** The same places, all with the same index value. *)
Definition ex_tied_table2 : list PointRec :=
  [candidate 10 0 1 0.5; candidate 11 3 4 0.5; candidate 12 6 8 0.5;
   candidate 13 0 5 0.5; candidate 14 60000 0 0.5].

(** A treatment point at the origin, and one with two control points
    within the threshold (a third is at exactly 50000). *)
Definition ex_row : PointRec := treatment 1 0 0 0.5.
Definition ex_row_far : PointRec := treatment 2 0 (-49995) 0.5.

Definition ex_merged : list PointRec :=
  [ex_row; ex_row_far] ++ ex_table2.

(** A row holding the absolute changes of one variable. *)
Definition ex_changes : row_dict :=
  <["Area2000_AC" := Fin 1]> (<["Area2020_AC" := Fin 3]> ∅).

(** A row with another value of [Area2000]. *)
Definition with_Area2000 (v : num) (r : PointRec) : PointRec :=
  {| pointID := pointID r; CEI := CEI r; X := X r; Y := Y r;
     Windowflag := Windowflag r; Buffer_type := Buffer_type r;
     NTL2000 := NTL2000 r; NTL2020 := NTL2020 r;
     ForestChange := ForestChange r; Plantations := Plantations r;
     Area2000 := v; Area2020 := Area2020 r;
     H2000 := H2000 r; H2020 := H2020 r;
     PD2000 := PD2000 r; PD2020 := PD2020 r;
     NPP2000 := NPP2000 r; NPP2020 := NPP2020 r |}.

(** The example tables with [Area2000] equal to 1 at the treatment point
    and to 10000 at every control point. *)
Definition ex_row_low : PointRec := with_Area2000 (Fin 1) ex_row.
Definition ex_table2_high : list PointRec :=
  map (with_Area2000 (Fin 10000)) ex_table2.

(** The same with an absolute change equal to the sentinel. *)
Definition ex_sentinel_change : row_dict :=
  <["Area2000_AC" := Fin (-9999)]> (<["Area2020_AC" := Fin 5]> ∅).

(** ** Notions for the further properties *)

(** The largest finite [float64] number, [2^1024 - 2^971]: a sum of
    numbers that does not exceed it does not overflow. *)
Definition float64_max : Q := inject_Z (2 ^ 1024 - 2 ^ 971).

(** [-x]. *)
Definition fneg (x : num) : num :=
  match x with
  | NaN => NaN
  | PInf => NInf
  | NInf => PInf
  | Fin q => Fin (- q)
  end.

(** Lines 207 to 226: the columns of the results table, in order. *)
Definition column_order : list string :=
  let column_order := ["pointID"; "X"; "Y"; "Buffer_type"] in
  let column_order :=
    foldl (fun order col =>
             order ++ [col +:+ "_road"; col +:+ "_ref";
                       col +:+ "_AC"; col +:+ "_RC"])
          column_order target_columns in
  let column_order :=
    foldl (fun order var =>
             order ++ [var +:+ "_AC_trend"; var +:+ "_RC_trend"])
          column_order trend_vars in
  column_order ++ ["CEI_Diff"; "Nearest_Ref_Distance"; "Ref_Points_Used"].

(** The lookups of [calculate_temporal_trends] for [var] raise KeyError:
    the absolute change of 2020 is missing from the row, or it is valid
    and the one of 2000 is missing. *)
Definition trend_lookup_raises (row : row_dict) (var : string) : Prop :=
  row !! (base_var_of var +:+ "2020_AC") = None
  \/ (exists v2020,
        row !! (base_var_of var +:+ "2020_AC") = Some v2020
        /\ is_valid_value v2020 = true
        /\ row !! (base_var_of var +:+ "2000_AC") = None).

(** A row whose absolute change of [Area] changes sign. *)
Definition ex_sign_change : row_dict :=
  <["Area2000_AC" := Fin (-1)]> (<["Area2020_AC" := Fin 3]> ∅).

(** ** The composite index (CalculatingCEI.py) *)

(** [np.maximum]: the first argument when it is larger or NaN. *)
Definition np_maximum (x y : num) : num :=
  if fltb y x || isnan x then x else y.

(** [a.max()]; ValueError on an empty array. *)
Definition np_max (a : list num) : option num :=
  match a with
  | [] => None
  | x :: a' => Some (foldl np_maximum x a')
  end.

(** [np.clip(x, lo, hi)], that is [np.minimum(hi, np.maximum(x, lo))]. *)
Definition np_clip (lo hi x : num) : num :=
  np_minimum hi (np_maximum x lo).

Module CalculatingCEI.

Definition INVALID_VALUES : list num := [Fin (-9999); Fin 65535].

(** What [process_data] does: it returns False and writes nothing, or it
    writes a table with the rows (pointID, CEI). *)
Inductive cei_run : Type :=
| ReturnsFalse
| Writes (result_df : list (num * num)).

(** A table as the list of its rows; [df.shape[1]] is the length of the
    rows, which all have the same length. *)
Definition shape1 (df : list (list num)) : nat :=
  match df with
  | [] => 0
  | r :: _ => length r
  end.

Definition rectangular (df : list (list num)) : Prop :=
  Forall (fun r => length r = shape1 df) df.

(** [df.empty]: no rows or no columns. *)
Definition df_empty (df : list (list num)) : bool :=
  (length df =? 0)%nat || (shape1 df =? 0)%nat.

(** [np.isin(x, INVALID_VALUES).any()] for one row of [X] (line 39). *)
Definition has_invalid (x : list num) : bool :=
  existsb (fun v => py_in v INVALID_VALUES) x.

(** [row[1:13]]: the twelve factor columns of a row (line 36). *)
Definition factors (r : list num) : list num := take 12 (drop 1 r).

(** Lines 73 to 84: the index scaled to the range of its values, all
    zeros when the values are identical, and clipped when a scaled value
    leaves the interval from 0 to 1. *)
Definition normalize_cindex (cindex : list num) : option (list num) :=
  cindex_min ← np_min cindex;
  cindex_max ← np_max cindex;
  let cindex_normalized :=
    if negb (feqb cindex_max cindex_min)
    then map (fun c => fdiv (fsub c cindex_min)
                            (fsub cindex_max cindex_min)) cindex
    else map (fun _ => Fin 0) cindex in
  Some (if existsb (fun c => fltb c (Fin 0)) cindex_normalized
           || existsb (fun c => fltb (Fin 1) c) cindex_normalized
        then map (np_clip (Fin 0) (Fin 1)) cindex_normalized
        else cindex_normalized).

Section ProcessData.

(** Lines 51 to 71: scaling with scikit-learn's RobustScaler, its PCA and
    the weighted sum of the components, from the clean rows to one index
    value per row; [None] when it raises. *)
Variable composite_index : list (list num) -> option (list num).

(** [process_data], from the table read from the input file on; any
    exception ends in the handler of line 102, which returns False.  The
    DataFrame of line 87 raises when its two columns differ in length. *)
Definition process_data (df : list (list num)) : cei_run :=
  if df_empty df || (shape1 df <? 14)%nat then ReturnsFalse
  else
    let point_id := map (fun r => nth 0 r NaN) df in
    let X := map factors df in
    let valid_mask := map (fun x => negb (has_invalid x)) X in
    if negb (existsb id valid_mask) then ReturnsFalse
    else
      match
        X_clean ← mask_select X valid_mask;
        point_id_clean ← mask_select point_id valid_mask;
        cindex ← composite_index X_clean;
        cindex_normalized ← normalize_cindex cindex;
        if (length point_id_clean =? length cindex_normalized)%nat
        then Some (zip point_id_clean cindex_normalized)
        else None
      with
      | Some result_df => Writes result_df
      | None => ReturnsFalse
      end.

End ProcessData.

End CalculatingCEI.

(** A stand-in for the index computation in the examples: the sum of the
    factors of a row. *)
Definition ex_composite_index (X : list (list num)) : option (list num) :=
  Some (map np_sum X).

(** A row of the input table: an identifier, twelve equal factors and a
    fourteenth column. *)
Definition ex_cei_row (id factor last : Q) : list num :=
  Fin id :: replicate 12 (Fin factor) ++ [Fin last].

(** Four rows, the third with the sentinel -9999 among its factors. *)
Definition ex_cei_df : list (list num) :=
  [ex_cei_row 1 2 0; ex_cei_row 2 5 0; ex_cei_row 3 (-9999) 0;
   ex_cei_row 4 3 0].

(** * Properties *)

(** ** Numbers *)

Lemma Qltb_lt (a b : Q) : Qltb a b = true <-> a < b.
Proof.
  unfold Qltb. rewrite negb_true_iff.
  split.
  - intros H. apply Qnot_le_lt. intros Hle.
    apply Qle_bool_iff in Hle. congruence.
  - intros H. destruct (Qle_bool b a) eqn:E; [|reflexivity].
    apply Qle_bool_iff in E. lra.
Qed.

Lemma Qltb_ge (a b : Q) : Qltb a b = false <-> b <= a.
Proof.
  unfold Qltb. rewrite negb_false_iff. apply Qle_bool_iff.
Qed.

Lemma Qeq_bool_false (a b : Q) : Qeq_bool a b = false <-> ~ a == b.
Proof.
  split.
  - intros H Heq. apply Qeq_bool_iff in Heq. congruence.
  - intros H. destruct (Qeq_bool a b) eqn:E; [|reflexivity].
    apply Qeq_bool_iff in E. contradiction.
Qed.

Lemma feq_refl (x : num) : x =f= x.
Proof. destruct x; simpl; auto. reflexivity. Qed.

Lemma sort_leb_total (x y : num) : sort_leb x y = true \/ sort_leb y x = true.
Proof.
  unfold sort_leb.
  destruct x as [| | |a], y as [| | |b]; simpl; auto.
  destruct (Qle_bool a b) eqn:E; [auto|right].
  apply Qle_bool_iff. destruct (Qle_bool b a) eqn:E'.
  - apply Qle_bool_iff. exact E'.
  - assert (~ a <= b) by (intros H; apply Qle_bool_iff in H; congruence).
    assert (~ b <= a) by (intros H'; apply Qle_bool_iff in H'; congruence).
    lra.
Qed.

Lemma sort_leb_trans (x y z : num) :
  sort_leb x y = true -> sort_leb y z = true -> sort_leb x z = true.
Proof.
  unfold sort_leb.
  destruct x as [| | |a], y as [| | |b], z as [| | |c]; simpl; auto;
    try discriminate.
  rewrite !Qle_bool_iff. intros. lra.
Qed.

Lemma sort_leb_false (x y : num) : sort_leb x y = false -> sort_leb y x = true.
Proof.
  intros H. destruct (sort_leb_total x y); congruence.
Qed.

(** ** Masks and positions *)

Lemma mask_select_map {A B : Type} (f : A -> bool) (g : A -> B) (a : list A) :
  mask_select (map g a) (map f a) = Some (map g (List.filter f a)).
Proof.
  induction a as [|x a IH]; simpl; [reflexivity|].
  rewrite IH. simpl. destruct (f x); reflexivity.
Qed.

Lemma mask_select_self {A : Type} (f : A -> bool) (a : list A) :
  mask_select a (map f a) = Some (List.filter f a).
Proof.
  pose proof (mask_select_map f id a) as H.
  rewrite !map_id in H. exact H.
Qed.

Lemma mask_select_mismatch {A : Type} (a : list A) (mask : list bool) :
  length a <> length mask -> mask_select a mask = None.
Proof.
  revert mask.
  induction a as [|x a IH]; intros [|m mask] H; simpl in *;
    try reflexivity; try congruence.
  rewrite IH by congruence. reflexivity.
Qed.

Lemma iloc_where_from {A : Type} (f : A -> bool) (pre a : list A) :
  iloc (pre ++ a) (np_where_from (length pre) (map f a))
  = Some (List.filter f a).
Proof.
  revert pre.
  induction a as [|x a IH]; intros pre; simpl; [reflexivity|].
  assert (Hshift : iloc (pre ++ x :: a)
                     (np_where_from (S (length pre)) (map f a))
                   = Some (List.filter f a)).
  { specialize (IH (pre ++ [x])).
    rewrite <- app_assoc in IH. simpl in IH.
    rewrite length_app in IH. simpl in IH.
    replace (length pre + 1)%nat with (S (length pre)) in IH by lia.
    exact IH. }
  destruct (f x).
  - unfold iloc in *. simpl.
    rewrite list_lookup_middle by reflexivity. simpl.
    rewrite Hshift. reflexivity.
  - exact Hshift.
Qed.

Lemma iloc_where {A : Type} (f : A -> bool) (a : list A) :
  iloc a (np_where (map f a)) = Some (List.filter f a).
Proof. exact (iloc_where_from f [] a). Qed.

Lemma iloc_map {A B : Type} (g : A -> B) (a : list A) (indices : list nat)
  (picked : list A) :
  iloc a indices = Some picked ->
  iloc (map g a) indices = Some (map g picked).
Proof.
  unfold iloc. revert picked.
  induction indices as [|i indices IH]; intros picked H; simpl in *.
  - injection H as <-. reflexivity.
  - rewrite list_lookup_fmap.
    destruct (a !! i) as [x|]; simpl in *; [|discriminate].
    destruct (mapM (fun i => a !! i) indices) as [rest|]; simpl in *;
      [|discriminate].
    injection H as <-.
    rewrite (IH rest eq_refl). reflexivity.
Qed.

Lemma iloc_in_range {A : Type} (a : list A) (indices : list nat) :
  Forall (fun i => (i < length a)%nat) indices ->
  exists picked,
    iloc a indices = Some picked /\ length picked = length indices.
Proof.
  unfold iloc.
  induction 1 as [|i indices Hi _ IH]; simpl.
  - exists []. auto.
  - destruct IH as (rest & -> & Hlen).
    destruct (lookup_lt_is_Some_2 a i Hi) as [x ->]. simpl.
    exists (x :: rest). simpl. auto.
Qed.

Lemma iloc_elem {A : Type} (a : list A) (indices : list nat)
  (picked : list A) (k : nat) (x : A) :
  iloc a indices = Some picked ->
  picked !! k = Some x ->
  exists i, indices !! k = Some i /\ a !! i = Some x.
Proof.
  unfold iloc. revert picked k.
  induction indices as [|i indices IH]; intros picked k H Hk; simpl in *.
  - injection H as <-. discriminate.
  - destruct (a !! i) as [y|] eqn:Ey; simpl in *; [|discriminate].
    destruct (mapM (fun i => a !! i) indices) as [rest|]; simpl in *;
      [|discriminate].
    injection H as <-.
    destruct k as [|k]; simpl in *.
    + injection Hk as <-. exists i. auto.
    + exact (IH rest k eq_refl Hk).
Qed.

(** ** Valid values and weights *)

Lemma is_valid_value_false (v : num) :
  is_valid_value v = false <-> v = NaN \/ v =f= Fin (-9999).
Proof.
  unfold is_valid_value, py_in, INVALID_VALUES.
  destruct v as [| | |q]; simpl; split; auto; try discriminate;
    try (intros [H|H]; [discriminate|contradiction]).
  - rewrite orb_false_r, andb_true_r, negb_false_iff. intros H. right.
    apply Qeq_bool_iff. exact H.
  - intros [H|H]; [discriminate|].
    rewrite orb_false_r, andb_true_r, negb_false_iff.
    apply Qeq_bool_iff. exact H.
Qed.

Lemma list_mask_select_fits {A : Type} (a : list A) (mask : list bool) :
  length a = length mask -> list_mask_select a mask = mask_select a mask.
Proof.
  destruct mask as [|b mask]; [|reflexivity].
  destruct a; [reflexivity|discriminate].
Qed.

Lemma list_mask_select_nonempty {A : Type} (a : list A) (mask : list bool) :
  mask <> [] -> list_mask_select a mask = mask_select a mask.
Proof. destruct mask; [congruence|reflexivity]. Qed.

Lemma sum_from_foldl (start : num) (terms : list num) :
  sum_from start terms = foldl fadd start terms.
Proof.
  revert start. induction terms as [|x terms IH]; intros start;
    [reflexivity|apply IH].
Qed.

Lemma spec_sum_np_sum (terms : list num) : spec_sum terms = np_sum terms.
Proof. apply sum_from_foldl. Qed.

Lemma spec_mean_np_mean (values : list num) :
  spec_mean values = np_mean values.
Proof. unfold spec_mean, np_mean. rewrite spec_sum_np_sum. reflexivity. Qed.

Lemma mask_select_entries (values distances : list num) :
  length values = length distances ->
  mask_select values (map is_valid_value values)
  = Some (map fst (valid_entries values distances))
  /\ mask_select distances (map is_valid_value values)
    = Some (map snd (valid_entries values distances)).
Proof.
  unfold valid_entries. revert distances.
  induction values as [|v values IH]; intros [|d distances] Hlen;
    simpl in *; try discriminate; [auto|].
  injection Hlen as Hlen.
  destruct (IH distances Hlen) as [-> ->]. simpl.
  destruct (is_valid_value v); simpl; auto.
Qed.

Lemma fpow_Fin (q : Q) (n : nat) :
  exists r, fpow (Fin q) n = Fin r /\ r == q ^ Z.of_nat n.
Proof.
  induction n as [|n IH].
  - exists 1. split; reflexivity.
  - destruct IH as (r & Hr & Hrq).
    destruct n as [|n].
    + exists q. split; [reflexivity|]. simpl. reflexivity.
    + change (fpow (Fin q) (S (S n))) with (fmul (Fin q) (fpow (Fin q) (S n))).
      rewrite Hr. simpl fmul.
      exists (q * r). split; [reflexivity|].
      rewrite Hrq.
      replace (Z.of_nat (S (S n))) with (1 + Z.of_nat (S n))%Z by lia.
      rewrite Qpower_plus' by lia.
      reflexivity.
Qed.

(** The weight of a distance that is a non-negative number: zero at
    distance zero (for a positive exponent), otherwise [1 / d^exponent],
    which is positive; and the script's test for an infinite weight
    forces the same entries to zero as the specification's test for a
    weight that is not finite. *)
Lemma weight_of_distance (exponent : nat) (d : num) :
  is_distance d = true ->
  exists q w,
    d = Fin q /\ 0 <= q
    /\ spec_weight exponent d = Fin w /\ 0 <= w
    /\ (let w0 := fdiv (Fin 1) (fpow d exponent) in
        (if isinf w0 then Fin 0 else w0) = Fin w)
    /\ (q ^ Z.of_nat exponent == 0 -> w == 0)
    /\ (~ q ^ Z.of_nat exponent == 0 -> w == 1 / q ^ Z.of_nat exponent).
Proof.
  destruct d as [| | |q]; simpl; try discriminate.
  intros Hq. apply Qle_bool_iff in Hq.
  destruct (fpow_Fin q exponent) as (r & Hr & Hrq).
  assert (Hr0 : 0 <= r) by (rewrite Hrq; apply Qpower_0_le; exact Hq).
  unfold spec_weight. rewrite Hr. simpl.
  destruct (Qeq_bool r 0) eqn:Er.
  - apply Qeq_bool_iff in Er. simpl.
    exists q, 0.
    assert (Hne : ~ ~ q ^ Z.of_nat exponent == 0)
      by (intros Hne; apply Hne; rewrite <- Hrq; exact Er).
    repeat split; auto; try lra; try (intros; reflexivity); try tauto.
  - apply Qeq_bool_false in Er. simpl.
    exists q, (1 / r).
    assert (H1 : 0 <= 1 / r) by (apply Qle_shift_div_l; lra).
    assert (H2 : ~ q ^ Z.of_nat exponent == 0)
      by (rewrite <- Hrq; exact Er).
    assert (H3 : 1 / r == 1 / q ^ Z.of_nat exponent)
      by (rewrite Hrq; reflexivity).
    repeat split; auto; try tauto.
Qed.

Lemma idw_weights_spec (exponent : nat) (entries : list (num * num)) :
  Forall (fun e => is_distance (snd e) = true) entries ->
  idw_weights (map snd entries) exponent
  = map (fun e => spec_weight exponent (snd e)) entries
  /\ Forall (fun w => exists q, w = Fin q /\ 0 <= q)
       (idw_weights (map snd entries) exponent).
Proof.
  intros H.
  assert (E : idw_weights (map snd entries) exponent
              = map (fun e => spec_weight exponent (snd e)) entries).
  { unfold idw_weights. rewrite !map_map.
    apply map_ext_in. intros e He.
    rewrite List.Forall_forall in H.
    destruct (weight_of_distance exponent (snd e) (H e He))
      as (q & w & _ & _ & Hs & Hw & Hi & _).
    cbv zeta in Hi. rewrite Hi, Hs. reflexivity. }
  split; [exact E|].
  rewrite E. clear E.
  induction H as [|e entries He _ IH]; simpl; constructor; [|exact IH].
  destruct (weight_of_distance exponent (snd e) He)
    as (q & w & _ & _ & Hs & Hw & _).
  exists w. auto.
Qed.

Lemma foldl_fadd_nonneg (a : list num) (acc : Q) :
  0 <= acc ->
  Forall (fun w => exists q, w = Fin q /\ 0 <= q) a ->
  exists t, foldl fadd (Fin acc) a = Fin t /\ 0 <= t.
Proof.
  intros Hacc H. revert acc Hacc.
  induction H as [|w a (q & -> & Hq) _ IH]; intros acc Hacc; simpl.
  - exists acc. auto.
  - apply IH. lra.
Qed.

Lemma np_sum_nonneg (a : list num) :
  Forall (fun w => exists q, w = Fin q /\ 0 <= q) a ->
  exists t, np_sum a = Fin t /\ 0 <= t.
Proof. apply foldl_fadd_nonneg. lra. Qed.

Lemma zip_with_map_entries {A : Type} (f g : A -> num) (entries : list A) :
  zip_with fmul (map f entries) (map g entries)
  = map (fun e => fmul (f e) (g e)) entries.
Proof.
  induction entries as [|e entries IH]; simpl; [reflexivity|].
  rewrite IH. reflexivity.
Qed.

Lemma valid_entries_distances (values distances : list num) :
  Forall (fun d => is_distance d = true) distances ->
  Forall (fun e => is_distance (snd e) = true) (valid_entries values distances).
Proof.
  unfold valid_entries. intros H. revert values.
  induction H as [|d distances Hd _ IH]; intros [|v values]; simpl;
    try constructor.
  destruct (is_valid_value v); simpl; [constructor; auto|]; apply IH.
Qed.

(** ** The Inverse-Distance Aggregator *)

(** The function on parallel arrays, as a function of the valid entries. *)
Lemma idw_by_entries (exponent : nat) (values distances : list num) :
  length values = length distances ->
  inverse_distance_weighting values distances exponent
  = let entries := valid_entries values distances in
    Some
      (if (length entries =? 0)%nat then NaN
       else
         let weights := idw_weights (map snd entries) exponent in
         if fltb (Fin 0) (np_sum weights)
         then fdiv (np_sum (zip_with fmul (map fst entries) weights))
                   (np_sum weights)
         else np_mean (map fst entries)).
Proof.
  intros Hlen. unfold inverse_distance_weighting.
  rewrite !list_mask_select_fits by (rewrite length_map; congruence).
  destruct (mask_select_entries values distances Hlen) as [-> ->].
  cbn [mbind option_bind]. rewrite length_map.
  destruct (length (valid_entries values distances) =? 0)%nat; [reflexivity|].
  cbv zeta.
  destruct (fltb (Fin 0) _); reflexivity.
Qed.

(** On arrays of different lengths the mask of the values does not fit
    the distances: IndexError, unless there is no value at all. *)
Lemma idw_raises_on_mismatch (exponent : nat) (values distances : list num) :
  values <> [] ->
  length values <> length distances ->
  inverse_distance_weighting values distances exponent = None.
Proof.
  intros Hne H. unfold inverse_distance_weighting.
  assert (Hm : map is_valid_value values <> [])
    by (destruct values; [congruence|discriminate]).
  rewrite !(list_mask_select_nonempty _ _ Hm).
  rewrite mask_select_self.
  cbn [mbind option_bind].
  rewrite mask_select_mismatch; [reflexivity|].
  rewrite length_map. auto.
Qed.

(** C5. Values that are missing (NaN) or equal to the sentinel -9999 are
    taken out before any weight is computed: on parallel arrays the
    function never raises, the valid entries are exactly the entries
    whose value is neither NaN nor the sentinel, the result is the same
    for any two inputs with the same valid entries, and when no valid
    entry remains the result is NaN. *)
Theorem idw_excludes_invalid_values (exponent : nat)
  (values distances : list num) :
  length values = length distances ->
  (exists result,
     inverse_distance_weighting values distances exponent = Some result)
  /\ (forall e,
        In e (valid_entries values distances)
        <-> In e (zip values distances)
            /\ fst e <> NaN /\ ~ fst e =f= Fin (-9999))
  /\ (forall values' distances',
        length values' = length distances' ->
        valid_entries values' distances' = valid_entries values distances ->
        inverse_distance_weighting values' distances' exponent
        = inverse_distance_weighting values distances exponent)
  /\ (valid_entries values distances = [] ->
      inverse_distance_weighting values distances exponent = Some NaN).
Proof.
  intros Hlen. repeat split.
  - rewrite idw_by_entries by exact Hlen. eauto.
  - unfold valid_entries in H. apply filter_In in H. tauto.
  - unfold valid_entries in H. apply filter_In in H.
    destruct H as [_ H] . intros E.
    assert (Hf : is_valid_value e.1 = false)
      by (apply is_valid_value_false; auto).
    congruence.
  - unfold valid_entries in H. apply filter_In in H.
    destruct H as [_ H] . intros E.
    assert (Hf : is_valid_value e.1 = false)
      by (apply is_valid_value_false; auto).
    congruence.
  - intros (Hin & Hnan & Hsent).
    unfold valid_entries. apply filter_In. split; [exact Hin|].
    destruct (is_valid_value e.1) eqn:E; [reflexivity|].
    apply is_valid_value_false in E. tauto.
  - intros values' distances' Hlen' Hsame.
    rewrite !idw_by_entries by assumption.
    cbv zeta. rewrite Hsame. reflexivity.
  - intros Hnone. rewrite idw_by_entries by exact Hlen.
    cbv zeta. rewrite Hnone. reflexivity.
Qed.

(** The theorem at a concrete input: three entries, the first missing and
    the last a sentinel. *)
Lemma idw_excludes_invalid_values_witness :
  inverse_distance_weighting [NaN; Fin 7; Fin (-9999)] [Fin 1; Fin 2; Fin 3] 2
  = inverse_distance_weighting [Fin 7] [Fin 2] 2.
Proof.
  pose proof (idw_excludes_invalid_values 2
                [NaN; Fin 7; Fin (-9999)] [Fin 1; Fin 2; Fin 3] eq_refl)
    as (_ & _ & Hsame & _).
  symmetry. apply Hsame; reflexivity.
Defined.

(** C4. On parallel arrays whose distances are non-negative numbers, the
    function returns what the specification describes ([spec_aggregate],
    stated with a sum and a mean of its own: undefined without valid
    entries, the plain mean of the valid values when the total weight is
    zero, otherwise the weighted average).  The weights it uses are the
    specified ones; each is a non-negative number, so none is negative or
    infinite; the weight of a valid entry is [1 / d^exponent] where that is
    finite and zero where it is not, which is the case at distance zero. *)
Theorem idw_is_the_specified_average (exponent : nat)
  (values distances : list num) :
  length values = length distances ->
  Forall (fun d => is_distance d = true) distances ->
  let entries := valid_entries values distances in
  let weights := idw_weights (map snd entries) exponent in
  inverse_distance_weighting values distances exponent
  = Some (spec_aggregate exponent values distances)
  /\ weights = map (fun e => spec_weight exponent (snd e)) entries
  /\ Forall (fun w => exists q, w = Fin q /\ 0 <= q) weights
  /\ (forall e, In e entries ->
        exists q w,
          snd e = Fin q /\ 0 <= q
          /\ spec_weight exponent (snd e) = Fin w
          /\ (q == 0 -> (0 < exponent)%nat -> w == 0)
          /\ (let w0 := fdiv (Fin 1) (fpow (snd e) exponent) in
              (is_finite w0 = true -> Fin w = w0)
              /\ (is_finite w0 = false -> w == 0))).
Proof.
  intros Hlen Hdist entries weights.
  pose proof (valid_entries_distances values distances Hdist) as Hproper.
  fold entries in Hproper.
  destruct (idw_weights_spec exponent entries Hproper) as [Hw Hnonneg].
  fold weights in Hw, Hnonneg.
  split; [|split; [exact Hw|split; [exact Hnonneg|]]].
  - rewrite idw_by_entries by exact Hlen.
    unfold spec_aggregate. cbv zeta. fold entries. fold weights.
    rewrite (spec_sum_np_sum
               (map (fun e => spec_weight exponent (snd e)) entries)).
    rewrite (spec_sum_np_sum
               (map (fun e => fmul (fst e) (spec_weight exponent (snd e)))
                  entries)).
    rewrite (spec_mean_np_mean (map fst entries)).
    destruct entries as [|e0 rest] eqn:Eentries; [reflexivity|].
    change (length (e0 :: rest) =? 0)%nat with false. cbv iota.
    destruct (np_sum_nonneg weights Hnonneg) as (t & Ht & Ht0).
    rewrite <- Hw, Ht. f_equal. simpl fltb. simpl feqb.
    rewrite <- (zip_with_map_entries fst
                  (fun e => spec_weight exponent (snd e))).
    rewrite <- Hw.
    destruct (Qeq_bool t 0) eqn:Et.
    + apply Qeq_bool_iff in Et.
      assert (Hlt : Qltb 0 t = false) by (apply Qltb_ge; lra).
      rewrite Hlt. reflexivity.
    + apply Qeq_bool_false in Et.
      assert (Hlt : Qltb 0 t = true) by (apply Qltb_lt; lra).
      rewrite Hlt. reflexivity.
  - intros e He.
    rewrite List.Forall_forall in Hproper.
    destruct (weight_of_distance exponent (snd e) (Hproper e He))
      as (q & w & Hq & Hq0 & Hs & Hw0 & _ & Hzero & _).
    exists q, w.
    split; [exact Hq|]. split; [exact Hq0|]. split; [exact Hs|].
    split.
    + intros Hqz Hexp. apply Hzero. rewrite Hqz.
      apply Qpower_0. lia.
    + cbv zeta. unfold spec_weight in Hs. cbv zeta in Hs.
      destruct (is_finite (fdiv (Fin 1) (fpow (snd e) exponent))).
      * split; [intros _; symmetry; exact Hs|discriminate].
      * split; [discriminate|]. intros _.
        injection Hs as <-. reflexivity.
Qed.

(** The theorem at a concrete input, with one reference at distance
    zero: the average of 20 and 30 with the weights 1/2000^2 and 1/3000^2
    is 300/13, that is 23.08 to two decimals. *)
Lemma idw_is_the_specified_average_witness :
  inverse_distance_weighting
    [Fin 10; Fin 20; Fin 30] [Fin 0; Fin 2000; Fin 3000] 2
  = Some (spec_aggregate 2
            [Fin 10; Fin 20; Fin 30] [Fin 0; Fin 2000; Fin 3000])
  /\ exists r,
       spec_aggregate 2
         [Fin 10; Fin 20; Fin 30] [Fin 0; Fin 2000; Fin 3000] = Fin r
       /\ approx r 23.08 0.005.
Proof.
  pose proof (idw_is_the_specified_average 2
                [Fin 10; Fin 20; Fin 30] [Fin 0; Fin 2000; Fin 3000]) as H.
  cbv zeta in H.
  split; [apply H; [reflexivity|repeat constructor]|].
  eexists. split; [vm_compute; reflexivity|].
  vm_compute. discriminate.
Defined.

(** C8, as stated, fails: on distances 1000, 2000, 3000 and values
    10, 20, 30 with exponent 2 the result is more than 0.1 away from
    13.27. *)
Lemma idw_scenario_is_not_13_27 :
  ~ (exists r,
       inverse_distance_weighting
         [Fin 10; Fin 20; Fin 30] [Fin 1000; Fin 2000; Fin 3000] IDW_POWER
       = Some (Fin r)
       /\ approx r 13.27 0.1).
Proof.
  intros (r & H & Hr).
  vm_compute in H. injection H as <-.
  vm_compute in Hr. apply Hr. reflexivity.
Qed.

(** C8, amended. On distances 1000, 2000, 3000 and values 10, 20, 30 with
    exponent 2 the weights are [1/d^2], that is 1e-6, 2.5e-7 and 1/9e6
    (1.11e-7 to three digits), and the weighted average is 13.47 to two
    decimals. *)
Theorem idw_scenario :
  (exists w1 w2 w3,
     idw_weights [Fin 1000; Fin 2000; Fin 3000] IDW_POWER
     = [Fin w1; Fin w2; Fin w3]
     /\ w1 == 1 / 1000 ^ 2 /\ w2 == 1 / 2000 ^ 2 /\ w3 == 1 / 3000 ^ 2
     /\ w1 == 0.000001 /\ w2 == 0.00000025
     /\ approx w3 0.000000111 0.0000000005)
  /\ (exists r,
        inverse_distance_weighting
          [Fin 10; Fin 20; Fin 30] [Fin 1000; Fin 2000; Fin 3000] IDW_POWER
        = Some (Fin r)
        /\ approx r 13.47 0.005).
Proof.
  split.
  - eexists _, _, _. split; [vm_compute; reflexivity|].
    repeat split; try reflexivity.
    vm_compute. discriminate.
  - eexists. split; [vm_compute; reflexivity|].
    vm_compute. discriminate.
Qed.

(** ** Column names *)

Lemma string_length_app (s t : string) :
  String.length (s +:+ t) = (String.length s + String.length t)%nat.
Proof.
  induction s as [|c s IH]; simpl; [reflexivity|].
  rewrite IH. reflexivity.
Qed.

(** Two names built with suffixes of the same length are equal only when
    both the stems and the suffixes are. *)
Lemma string_app_suffix_inj (s1 s2 t1 t2 : string) :
  String.length t1 = String.length t2 ->
  s1 +:+ t1 = s2 +:+ t2 ->
  s1 = s2 /\ t1 = t2.
Proof.
  intros Hlen. revert s2.
  induction s1 as [|c1 s1 IH]; intros [|c2 s2] H.
  - auto.
  - exfalso. apply (f_equal String.length) in H.
    rewrite !string_length_app in H. simpl in H. lia.
  - exfalso. apply (f_equal String.length) in H.
    rewrite !string_length_app in H. simpl in H. lia.
  - injection H as -> H. destruct (IH s2 H) as [-> ->]. auto.
Qed.

Lemma ac_trend_key_inj (b1 b2 : string) :
  b1 +:+ "_AC_trend" = b2 +:+ "_AC_trend" -> b1 = b2.
Proof. intros H. apply string_app_suffix_inj in H; tauto. Qed.

Lemma rc_trend_key_inj (b1 b2 : string) :
  b1 +:+ "_RC_trend" = b2 +:+ "_RC_trend" -> b1 = b2.
Proof. intros H. apply string_app_suffix_inj in H; tauto. Qed.

Lemma ac_rc_trend_key_ne (b1 b2 : string) :
  b1 +:+ "_AC_trend" <> b2 +:+ "_RC_trend".
Proof.
  intros H. apply string_app_suffix_inj in H; [|reflexivity].
  destruct H as [_ H]. discriminate.
Qed.

(** ** Temporal trends *)

(** What one iteration of the loop of [calculate_temporal_trends] does
    when it does not raise: it stores two values under the names of the
    base variable, and these are [trend_values] of the two absolute
    changes whenever the row has both. *)
Lemma trend_of_var_inv (row trends trends' : row_dict) (var : string) :
  trend_of_var row trends var = Some trends' ->
  exists act rct,
    trends' = <[base_var_of var +:+ "_RC_trend" := rct]>
                (<[base_var_of var +:+ "_AC_trend" := act]> trends)
    /\ (forall ac2000 ac2020,
          row !! (base_var_of var +:+ "2000_AC") = Some ac2000 ->
          row !! (base_var_of var +:+ "2020_AC") = Some ac2020 ->
          (act, rct) = trend_values ac2000 ac2020).
Proof.
  unfold trend_of_var. cbv zeta. intros H.
  destruct (row !! (base_var_of var +:+ "2020_AC")) as [v2020|] eqn:E2020;
    [|discriminate].
  cbn [mbind option_bind] in H.
  destruct (is_valid_value v2020) eqn:V2020.
  - destruct (row !! (base_var_of var +:+ "2000_AC")) as [v2000|] eqn:E2000;
      [|discriminate].
    cbn [mbind option_bind] in H.
    destruct (is_valid_value v2000) eqn:V2000.
    + destruct (fltb (Fin 0) (fadd (fabs v2000) (fabs v2020))) eqn:D;
        injection H as <-; eexists _, _; (split; [reflexivity|]);
        intros ? ? [= <-] [= <-]; unfold trend_values;
        rewrite V2020, V2000, D; reflexivity.
    + injection H as <-. eexists _, _. split; [reflexivity|].
      intros ? ? [= <-] [= <-]. unfold trend_values.
      rewrite V2020, V2000. reflexivity.
  - injection H as <-. eexists _, _. split; [reflexivity|].
    intros ac2000 ? _ [= <-]. unfold trend_values.
    rewrite V2020. reflexivity.
Qed.

(** The iteration does not raise when the row has both absolute changes. *)
Lemma trend_of_var_total (row trends : row_dict) (var : string)
  (ac2000 ac2020 : num) :
  row !! (base_var_of var +:+ "2000_AC") = Some ac2000 ->
  row !! (base_var_of var +:+ "2020_AC") = Some ac2020 ->
  exists trends', trend_of_var row trends var = Some trends'.
Proof.
  intros E2000 E2020. unfold trend_of_var. cbv zeta.
  rewrite E2020. cbn [mbind option_bind].
  destruct (is_valid_value ac2020); [|eauto].
  rewrite E2000. cbn [mbind option_bind].
  destruct (is_valid_value ac2000); [|eauto].
  destruct (fltb _ _); eauto.
Qed.

Section TrendsLoop.

Variable row : row_dict.

Local Abbreviation trends_agree := (trends_agree_with row).

Lemma trend_of_var_agrees (trends trends' : row_dict) (var : string) :
  trend_of_var row trends var = Some trends' ->
  trends_agree trends' (base_var_of var).
Proof.
  intros H. destruct (trend_of_var_inv _ _ _ _ H) as (act & rct & -> & Hv).
  intros ac2000 ac2020 E0 E1.
  rewrite <- (Hv _ _ E0 E1). simpl.
  rewrite lookup_insert_ne by (apply not_eq_sym, ac_rc_trend_key_ne).
  rewrite !lookup_insert_eq. auto.
Qed.

Lemma trend_of_var_keeps (trends trends' : row_dict) (var base : string) :
  trend_of_var row trends var = Some trends' ->
  trends_agree trends base ->
  trends_agree trends' base.
Proof.
  intros H Hagree.
  destruct (decide (base_var_of var = base)) as [<-|Hne].
  - exact (trend_of_var_agrees _ _ _ H).
  - destruct (trend_of_var_inv _ _ _ _ H) as (act & rct & -> & _).
    intros ac2000 ac2020 E0 E1.
    destruct (Hagree _ _ E0 E1) as [Hac Hrc].
    split.
    + rewrite lookup_insert_ne by (apply not_eq_sym, ac_rc_trend_key_ne).
      rewrite lookup_insert_ne
        by (intros E; apply ac_trend_key_inj in E; contradiction).
      exact Hac.
    + rewrite lookup_insert_ne
        by (intros E; apply rc_trend_key_inj in E; contradiction).
      rewrite lookup_insert_ne by apply ac_rc_trend_key_ne.
      exact Hrc.
Qed.

Lemma trends_loop_keeps (vars : list string) (trends trends' : row_dict)
  (base : string) :
  trends_loop row trends vars = Some trends' ->
  trends_agree trends base ->
  trends_agree trends' base.
Proof.
  revert trends.
  induction vars as [|var vars IH]; intros trends H Hagree; simpl in H.
  - injection H as <-. exact Hagree.
  - destruct (trend_of_var row trends var) as [trends1|] eqn:E;
      [|discriminate].
    cbn [mbind option_bind] in H.
    exact (IH _ H (trend_of_var_keeps _ _ _ _ E Hagree)).
Qed.

Lemma trends_loop_agrees (vars : list string) (trends trends' : row_dict)
  (var : string) :
  trends_loop row trends vars = Some trends' ->
  In var vars ->
  trends_agree trends' (base_var_of var).
Proof.
  revert trends.
  induction vars as [|var' vars IH]; intros trends H Hin; simpl in H.
  - destruct Hin.
  - destruct (trend_of_var row trends var') as [trends1|] eqn:E;
      [|discriminate].
    cbn [mbind option_bind] in H.
    destruct Hin as [->|Hin].
    + exact (trends_loop_keeps _ _ _ _ H (trend_of_var_agrees _ _ _ E)).
    + exact (IH _ H Hin).
Qed.

(** The loop only writes trend entries of its variables. *)
Lemma trends_loop_other (vars : list string) (trends trends' : row_dict)
  (key : string) :
  trends_loop row trends vars = Some trends' ->
  (forall var, In var vars ->
     key <> base_var_of var +:+ "_AC_trend"
     /\ key <> base_var_of var +:+ "_RC_trend") ->
  trends' !! key = trends !! key.
Proof.
  revert trends.
  induction vars as [|var vars IH]; intros trends H Hkey; simpl in H.
  - injection H as <-. reflexivity.
  - destruct (trend_of_var row trends var) as [trends1|] eqn:E;
      [|discriminate].
    cbn [mbind option_bind] in H.
    rewrite (IH _ H) by (intros v Hv; apply Hkey; right; exact Hv).
    destruct (trend_of_var_inv _ _ _ _ E) as (act & rct & -> & _).
    destruct (Hkey var (or_introl eq_refl)) as [Hac Hrc].
    rewrite !lookup_insert_ne by (apply not_eq_sym; assumption).
    reflexivity.
Qed.

(** The loop does not raise when the row has the absolute changes of
    every variable. *)
Lemma trends_loop_total (vars : list string) (trends : row_dict) :
  (forall var, In var vars ->
     is_Some (row !! (base_var_of var +:+ "2000_AC"))
     /\ is_Some (row !! (base_var_of var +:+ "2020_AC"))) ->
  exists trends', trends_loop row trends vars = Some trends'.
Proof.
  revert trends.
  induction vars as [|var vars IH]; intros trends Hrow; simpl.
  - eauto.
  - destruct (Hrow var (or_introl eq_refl)) as [[a0 E0] [a1 E1]].
    destruct (trend_of_var_total row trends var a0 a1 E0 E1) as [t1 ->].
    cbn [mbind option_bind].
    apply IH. intros v Hv. apply Hrow. right. exact Hv.
Qed.

End TrendsLoop.

Lemma is_valid_value_not_nan (v : num) :
  is_valid_value v = true -> isnan v = false.
Proof.
  unfold is_valid_value. intros H.
  apply andb_true_iff in H. destruct H as [_ H].
  apply negb_true_iff in H. exact H.
Qed.

(** A sum of two absolute values is positive exactly when it is not zero. *)
Lemma abs_sum_positive (x y : num) :
  isnan x = false -> isnan y = false ->
  fltb (Fin 0) (fadd (fabs x) (fabs y))
  = negb (feqb (fadd (fabs x) (fabs y)) (Fin 0)).
Proof.
  destruct x as [| | |a], y as [| | |b]; simpl; try discriminate;
    try reflexivity.
  intros _ _.
  pose proof (Qabs_nonneg a). pose proof (Qabs_nonneg b).
  destruct (Qeq_bool (Qabs a + Qabs b) 0) eqn:E; simpl.
  - apply Qeq_bool_iff in E. apply Qltb_ge. lra.
  - apply Qeq_bool_false in E. apply Qltb_lt. lra.
Qed.

(** C7, as stated, fails: an absolute change that is defined (a number,
    not NaN) but equal to the sentinel -9999 is rejected by
    [is_valid_value], and both trends are NaN although both absolute
    changes are defined.  With the absolute changes -9999 (2000) and 5
    (2020) the trend of the absolute change is NaN, not 10004. *)
Lemma trend_of_sentinel_change_is_undefined :
  ~ (forall (row : row_dict) (target_vars : list string) (trends : row_dict)
            (var : string) (ac2000 ac2020 : num),
       calculate_temporal_trends row target_vars = Some trends ->
       In var target_vars ->
       row !! (base_var_of var +:+ "2000_AC") = Some ac2000 ->
       row !! (base_var_of var +:+ "2020_AC") = Some ac2020 ->
       isnan ac2000 = false -> isnan ac2020 = false ->
       trends !! (base_var_of var +:+ "_AC_trend")
       = Some (fsub ac2020 ac2000)).
Proof.
  intros H.
  destruct (calculate_temporal_trends ex_sentinel_change ["Area"])
    as [trends|] eqn:Hrun; [|vm_compute in Hrun; discriminate].
  specialize (H ex_sentinel_change ["Area"] trends "Area"
                (Fin (-9999)) (Fin 5) Hrun (or_introl eq_refl)
                eq_refl eq_refl eq_refl eq_refl).
  assert (Hcell : (calculate_temporal_trends ex_sentinel_change ["Area"]
                   ≫= fun t => t !! "Area_AC_trend") = Some NaN)
    by (vm_compute; reflexivity).
  rewrite Hrun in Hcell. cbn [mbind option_bind] in Hcell.
  pose proof (eq_trans (eq_sym H) Hcell) as E. discriminate E.
Qed.

(** The same in the batch: a treatment value 1 against a background of
    10000 gives the absolute change -9999 for 2000, and the trends of
    [Area] are NaN although both absolute changes are numbers. *)
Lemma sentinel_change_in_a_result_row :
  let o := process_point sqrt_floor stable_argsort ex_row_low ex_table2_high in
  exists ac2000 ac2020,
    result_cell o "Area2000_AC" = Some (Fin ac2000) /\ ac2000 == -9999
    /\ result_cell o "Area2020_AC" = Some (Fin ac2020) /\ ac2020 == 4
    /\ result_cell o "Area_AC_trend" = Some NaN
    /\ result_cell o "Area_RC_trend" = Some NaN.
Proof.
  eexists _, _.
  split; [vm_compute; reflexivity|]. split; [reflexivity|].
  split; [vm_compute; reflexivity|]. split; [reflexivity|].
  split; vm_compute; reflexivity.
Qed.

(** C7, amended. For every variable [calculate_temporal_trends] is given,
    with [base] its name without the year suffix and the row holding the
    two absolute changes [base2000_AC] and [base2020_AC]: when both are
    valid (neither NaN nor equal to the sentinel -9999), [base_AC_trend]
    is their difference (2020 minus 2000) and [base_RC_trend] is that
    difference over the sum of their absolute values, times 100, or NaN
    when that sum is zero; when one of them is not valid (NaN, or equal
    to the sentinel), both trends are NaN. *)
Theorem temporal_trends_formulas (row : row_dict) (target_vars : list string)
  (trends : row_dict) (var : string) (ac2000 ac2020 : num) :
  calculate_temporal_trends row target_vars = Some trends ->
  In var target_vars ->
  row !! (base_var_of var +:+ "2000_AC") = Some ac2000 ->
  row !! (base_var_of var +:+ "2020_AC") = Some ac2020 ->
  exists ac_trend rc_trend,
    trends !! (base_var_of var +:+ "_AC_trend") = Some ac_trend
    /\ trends !! (base_var_of var +:+ "_RC_trend") = Some rc_trend
    /\ (is_valid_value ac2000 = true -> is_valid_value ac2020 = true ->
        let denominator := fadd (fabs ac2000) (fabs ac2020) in
        ac_trend = fsub ac2020 ac2000
        /\ (feqb denominator (Fin 0) = false ->
            rc_trend = fmul (fdiv ac_trend denominator) (Fin 100))
        /\ (feqb denominator (Fin 0) = true -> rc_trend = NaN))
    /\ (is_valid_value ac2000 = false \/ is_valid_value ac2020 = false ->
        ac_trend = NaN /\ rc_trend = NaN).
Proof.
  intros Hrun Hin E2000 E2020.
  destruct (trends_loop_agrees row _ _ _ var Hrun Hin _ _ E2000 E2020)
    as [Hac Hrc].
  eexists _, _. split; [exact Hac|]. split; [exact Hrc|].
  unfold trend_values. split.
  - intros V2000 V2020. rewrite V2000, V2020. cbn [andb fst snd]. cbv zeta.
    rewrite abs_sum_positive by (apply is_valid_value_not_nan; assumption).
    split; [reflexivity|].
    split; intros ->; reflexivity.
  - intros [V|V]; rewrite V; [rewrite andb_false_r|]; simpl; auto.
Qed.

(** The theorem at a row with the absolute changes 1 (2000) and 3 (2020)
    of [Area], for the variable name [Area2000]. *)
Lemma temporal_trends_formulas_witness :
  exists trends,
    calculate_temporal_trends ex_changes ["Area2000"] = Some trends
    /\ trends !! "Area_AC_trend" = Some (fsub (Fin 3) (Fin 1))
    /\ trends !! "Area_RC_trend"
       = Some (fmul (fdiv (fsub (Fin 3) (Fin 1))
                          (fadd (fabs (Fin 1)) (fabs (Fin 3))))
                    (Fin 100)).
Proof.
  destruct (calculate_temporal_trends ex_changes ["Area2000"])
    as [trends|] eqn:Hrun; [|vm_compute in Hrun; discriminate].
  destruct (temporal_trends_formulas ex_changes ["Area2000"] trends
              "Area2000" (Fin 1) (Fin 3) Hrun)
    as (ac & rc & Eac & Erc & Hvalid & _);
    [left; reflexivity|reflexivity|reflexivity|].
  destruct (Hvalid eq_refl eq_refl) as (-> & Hrc & _).
  rewrite (Hrc eq_refl) in Erc.
  exists trends. auto.
Defined.

(** ** Absolute and relative change *)

Lemma fadd_comm (x y : num) : fadd x y =f= fadd y x.
Proof.
  destruct x, y; simpl; auto. apply Qplus_comm.
Qed.

Lemma feqb_feq (x x' y : num) : x =f= x' -> feqb x y = feqb x' y.
Proof.
  destruct x as [| | |a], x' as [| | |a'], y as [| | |b]; simpl; auto;
    try contradiction.
  intros H.
  destruct (Qeq_bool a b) eqn:E1, (Qeq_bool a' b) eqn:E2; auto.
  - apply Qeq_bool_iff in E1. apply Qeq_bool_false in E2.
    exfalso. apply E2. rewrite <- H. exact E1.
  - apply Qeq_bool_iff in E2. apply Qeq_bool_false in E1.
    exfalso. apply E1. rewrite H. exact E2.
Qed.

Lemma Qltb_comp (a a' b b' : Q) :
  a == a' -> b == b' -> Qltb a b = Qltb a' b'.
Proof.
  intros Ha Hb.
  destruct (Qltb a b) eqn:E1, (Qltb a' b') eqn:E2; auto.
  - apply Qltb_lt in E1. apply Qltb_ge in E2. lra.
  - apply Qltb_lt in E2. apply Qltb_ge in E1. lra.
Qed.

Lemma Qeq_bool_comp (a a' b : Q) :
  a == a' -> Qeq_bool a b = Qeq_bool a' b.
Proof.
  intros Ha. exact (feqb_feq (Fin a) (Fin a') (Fin b) Ha).
Qed.

Lemma fdiv_feq (x y y' : num) : y =f= y' -> fdiv x y =f= fdiv x y'.
Proof.
  destruct x as [| | |a], y as [| | |b], y' as [| | |b']; simpl; auto;
    try contradiction; intros H.
  - rewrite (Qltb_comp b b' 0 0 H (Qeq_refl 0)).
    destruct (Qltb b' 0); simpl; auto.
  - rewrite (Qltb_comp b b' 0 0 H (Qeq_refl 0)).
    destruct (Qltb b' 0); simpl; auto.
  - reflexivity.
  - reflexivity.
  - rewrite (Qeq_bool_comp b b' 0 H).
    destruct (Qeq_bool b' 0) eqn:E.
    + apply feq_refl.
    + simpl. rewrite H. reflexivity.
Qed.

Lemma fmul_feq (x x' y : num) : x =f= x' -> fmul x y =f= fmul x' y.
Proof.
  destruct x as [| | |a], x' as [| | |a'], y as [| | |b]; simpl; auto;
    try contradiction; try (intros _; apply feq_refl); intros H.
  - rewrite (Qeq_bool_comp a a' 0 H).
    destruct (Qeq_bool a' 0); simpl; auto.
    unfold inf_of_sign. rewrite (Qltb_comp 0 0 a a' (Qeq_refl 0) H).
    apply feq_refl.
  - rewrite (Qeq_bool_comp a a' 0 H).
    destruct (Qeq_bool a' 0); simpl; auto.
    unfold inf_of_sign.
    assert (H' : - a == - a') by (rewrite H; reflexivity).
    rewrite (Qltb_comp 0 0 (- a) (- a') (Qeq_refl 0) H').
    apply feq_refl.
  - rewrite H. reflexivity.
Qed.

(** The relative change is a number between -100 and 100, or NaN. *)
Lemma impact_scores_bound (treatment bg_mean : num) :
  snd (impact_scores treatment bg_mean) = NaN
  \/ exists q, snd (impact_scores treatment bg_mean) = Fin q
               /\ -100 <= q <= 100.
Proof.
  unfold impact_scores.
  destruct (is_valid_value treatment && is_valid_value bg_mean) eqn:V;
    [|left; reflexivity].
  apply andb_true_iff in V. destruct V as [Vt Vb].
  apply is_valid_value_not_nan in Vt, Vb.
  destruct treatment as [| | |a], bg_mean as [| | |c]; try discriminate;
    simpl; auto.
  destruct (Qeq_bool (Qabs c + Qabs a) 0) eqn:E; simpl; [auto|].
  right. eexists. split; [reflexivity|].
  apply Qeq_bool_false in E.
  pose proof (Qabs_nonneg a). pose proof (Qabs_nonneg c).
  pose proof (Qle_Qabs a). pose proof (Qle_Qabs c).
  pose proof (Qle_Qabs (- a)) as Ha. rewrite Qabs_opp in Ha.
  pose proof (Qle_Qabs (- c)) as Hc. rewrite Qabs_opp in Hc.
  set (d := Qabs c + Qabs a) in *.
  assert (Hd : 0 < d) by (unfold d in *; lra).
  assert (Hup : (a - c) / d <= 1)
    by (apply Qle_shift_div_r; [exact Hd|unfold d; lra]).
  assert (Hlo : -1 <= (a - c) / d)
    by (apply Qle_shift_div_l; [exact Hd|unfold d; lra]).
  lra.
Qed.

(** ** The columns of a result row *)

Section ResultRow.

Variable row : PointRec.
Variable sel : Selection.

Lemma score_column_inv (rr rr' : row_dict) (col : string) :
  score_column row sel rr col = Some rr' ->
  exists t b,
    row_get row col = Some t
    /\ background_of sel col = Some b
    /\ rr' = <[col +:+ "_RC" := snd (impact_scores t b)]>
               (<[col +:+ "_AC" := fst (impact_scores t b)]>
                  (<[col +:+ "_ref" := b]>
                     (<[col +:+ "_road" := t]> rr))).
Proof.
  unfold score_column. intros H.
  destruct (background_of sel col) as [b|]; [|discriminate].
  cbn [mbind option_bind] in H.
  destruct (row_get row col) as [t|]; [|discriminate].
  cbn [mbind option_bind] in H.
  destruct (impact_scores t b) as [ac rc] eqn:E.
  injection H as <-. exists t, b. rewrite E. auto.
Qed.

Lemma score_columns_other (cols : list string) (rr rr' : row_dict)
  (key : string) :
  score_columns row sel rr cols = Some rr' ->
  (forall col, col ∈ cols -> key ∉ column_keys col) ->
  rr' !! key = rr !! key.
Proof.
  revert rr.
  induction cols as [|c cols IH]; intros rr H Hkey; simpl in H.
  - injection H as <-. reflexivity.
  - destruct (score_column row sel rr c) as [rr1|] eqn:E; [|discriminate].
    cbn [mbind option_bind] in H.
    rewrite (IH _ H) by (intros col Hcol; apply Hkey; right; exact Hcol).
    destruct (score_column_inv _ _ _ E) as (t & b & _ & _ & ->).
    assert (Hc : key ∉ column_keys c) by (apply Hkey; left).
    unfold column_keys in Hc.
    apply not_elem_of_cons in Hc as [N1 Hc].
    apply not_elem_of_cons in Hc as [N2 Hc].
    apply not_elem_of_cons in Hc as [N3 Hc].
    apply not_elem_of_cons in Hc as [N4 _].
    rewrite !lookup_insert_ne by congruence.
    reflexivity.
Qed.

Lemma score_columns_entries (cols : list string) (rr rr' : row_dict)
  (col : string) :
  score_columns row sel rr cols = Some rr' ->
  NoDup (concat (map column_keys cols)) ->
  col ∈ cols ->
  exists t b,
    row_get row col = Some t
    /\ background_of sel col = Some b
    /\ rr' !! (col +:+ "_road") = Some t
    /\ rr' !! (col +:+ "_ref") = Some b
    /\ rr' !! (col +:+ "_AC") = Some (fst (impact_scores t b))
    /\ rr' !! (col +:+ "_RC") = Some (snd (impact_scores t b)).
Proof.
  revert rr.
  induction cols as [|c cols IH]; intros rr H Hnodup Hin; simpl in H.
  - inversion Hin.
  - destruct (score_column row sel rr c) as [rr1|] eqn:E; [|discriminate].
    cbn [mbind option_bind] in H.
    change (concat (map column_keys (c :: cols)))
      with (column_keys c ++ concat (map column_keys cols)) in Hnodup.
    apply NoDup_app in Hnodup.
    destruct Hnodup as (Hc & Hdisj & Hrest).
    apply elem_of_cons in Hin. destruct Hin as [->|Hin].
    + destruct (score_column_inv _ _ _ E) as (t & b & Ht & Hb & ->).
      exists t, b. split; [exact Ht|]. split; [exact Hb|].
      assert (Hkeep : forall key, key ∈ column_keys c ->
                forall col', col' ∈ cols -> key ∉ column_keys col').
      { intros key Hk col' Hcol' Hk'.
        apply (Hdisj key Hk).
        apply list_elem_of_In, in_concat.
        exists (column_keys col'). split.
        - apply in_map, list_elem_of_In. exact Hcol'.
        - apply list_elem_of_In. exact Hk'. }
      unfold column_keys in Hc.
      apply NoDup_cons in Hc. destruct Hc as [H1 Hc].
      apply NoDup_cons in Hc. destruct Hc as [H2 Hc].
      apply NoDup_cons in Hc. destruct Hc as [H3 _].
      apply not_elem_of_cons in H1 as [N12 H1].
      apply not_elem_of_cons in H1 as [N13 H1].
      apply not_elem_of_cons in H1 as [N14 _].
      apply not_elem_of_cons in H2 as [N23 H2].
      apply not_elem_of_cons in H2 as [N24 _].
      apply not_elem_of_cons in H3 as [N34 _].
      repeat split.
      * rewrite (score_columns_other _ _ _ _ H)
          by (apply Hkeep; unfold column_keys; repeat constructor).
        rewrite !lookup_insert_ne by congruence.
        apply lookup_insert_eq.
      * rewrite (score_columns_other _ _ _ _ H)
          by (apply Hkeep; unfold column_keys; repeat constructor).
        rewrite !lookup_insert_ne by congruence.
        apply lookup_insert_eq.
      * rewrite (score_columns_other _ _ _ _ H)
          by (apply Hkeep; unfold column_keys; repeat constructor).
        rewrite !lookup_insert_ne by congruence.
        apply lookup_insert_eq.
      * rewrite (score_columns_other _ _ _ _ H)
          by (apply Hkeep; unfold column_keys; repeat constructor).
        apply lookup_insert_eq.
    + exact (IH _ H Hrest Hin).
Qed.

Lemma score_columns_total (cols : list string) (rr : row_dict) :
  (forall col, col ∈ cols ->
     is_Some (row_get row col) /\ is_Some (background_of sel col)) ->
  exists rr', score_columns row sel rr cols = Some rr'.
Proof.
  revert rr.
  induction cols as [|c cols IH]; intros rr Hcols; simpl.
  - eauto.
  - destruct (Hcols c) as [[t Ht] [b Hb]]; [left|].
    unfold score_column. rewrite Hb, Ht. cbn [mbind option_bind].
    destruct (impact_scores t b) as [ac rc].
    apply IH. intros col Hcol. apply Hcols. right. exact Hcol.
Qed.

End ResultRow.

(** ** Selecting the references *)

Lemma py_int_floor (q : Q) : 0 <= q -> py_int q = Qfloor q.
Proof.
  destruct q as [n d]. unfold py_int, Qfloor, Qle. simpl.
  intros H. apply Z.quot_div_nonneg; lia.
Qed.

Lemma n_top_floor (len : nat) :
  n_top_of len
  = Z.max (Z.of_nat MIN_REF_POINTS)
          (Qfloor (inject_Z (Z.of_nat len) * TOP_PERCENTILE)).
Proof.
  unfold n_top_of. rewrite py_int_floor; [reflexivity|].
  unfold TOP_PERCENTILE, Qle. simpl. lia.
Qed.

Lemma n_top_bound (len : nat) :
  (MIN_REF_POINTS <= len)%nat ->
  (MIN_REF_POINTS <= Z.to_nat (n_top_of len) <= len)%nat.
Proof.
  unfold n_top_of, MIN_REF_POINTS, py_int, TOP_PERCENTILE. simpl.
  intros H.
  change (Z.pos (1 * 10)) with 10%Z. change (Z.of_nat 3) with 3%Z.
  rewrite Z.quot_div_nonneg by lia.
  assert (Hdiv : (Z.of_nat len * 2 / 10 <= Z.of_nat len)%Z)
    by (apply Z.div_le_upper_bound; lia).
  lia.
Qed.

Section Selecting.

Variable np_sqrt : num -> num.
Variable argsort : list num -> list nat.

(** The selection, in terms of the kept candidates. *)
Lemma select_references_unfold (row : PointRec) (table2 : list PointRec) :
  select_references np_sqrt argsort row table2
  = let kept := kept_candidates np_sqrt row table2 in
    let dists := map (distance_to np_sqrt row) kept in
    let diffs := map (index_difference row) kept in
    if (length kept <? MIN_REF_POINTS)%nat then Some None
    else
      let top_indices :=
        take (Z.to_nat (n_top_of (length kept))) (argsort diffs) in
      top ← iloc kept top_indices;
      top_dists ← iloc dists top_indices;
      Some (Some {| filtered_distances := dists;
                    filtered_cindex_diffs := diffs;
                    filtered_table2 := kept;
                    sorted_indices := argsort diffs;
                    top_records := top;
                    top_distances := top_dists |}).
Proof.
  unfold select_references. cbv zeta.
  rewrite !map_map.
  rewrite (mask_select_map
             (fun c => fltb (distance_to np_sqrt row c) THRESHOLD_DISTANCE)
             (distance_to np_sqrt row) table2).
  cbn [mbind option_bind].
  rewrite (mask_select_map
             (fun c => fltb (distance_to np_sqrt row c) THRESHOLD_DISTANCE)
             (fun c => fabs (fsub (CEI c) (CEI row))) table2).
  cbn [mbind option_bind].
  rewrite (iloc_where
             (fun c => fltb (distance_to np_sqrt row c) THRESHOLD_DISTANCE)
             table2).
  cbn [mbind option_bind].
  reflexivity.
Qed.

Lemma select_references_skipped (row : PointRec) (table2 : list PointRec) :
  (length (kept_candidates np_sqrt row table2) < MIN_REF_POINTS)%nat ->
  select_references np_sqrt argsort row table2 = Some None.
Proof.
  intros H. rewrite select_references_unfold. cbv zeta.
  apply Nat.ltb_lt in H. rewrite H. reflexivity.
Qed.

Hypothesis argsort_ok : argsort_contract argsort.

Lemma argsort_length (keys : list num) :
  length (argsort keys) = length keys.
Proof.
  destruct (argsort_ok keys) as [Hperm _].
  rewrite (Permutation_length Hperm). apply length_seq.
Qed.

Lemma argsort_in_range (keys : list num) :
  Forall (fun i => (i < length keys)%nat) (argsort keys).
Proof.
  destruct (argsort_ok keys) as [Hperm _].
  apply List.Forall_forall. intros i Hi.
  apply (Permutation_in _ Hperm), in_seq in Hi. lia.
Qed.

Lemma select_references_selected (row : PointRec) (table2 : list PointRec) :
  (MIN_REF_POINTS <= length (kept_candidates np_sqrt row table2))%nat ->
  let kept := kept_candidates np_sqrt row table2 in
  let diffs := map (index_difference row) kept in
  let n_top := Z.to_nat (n_top_of (length kept)) in
  exists top,
    iloc kept (take n_top (argsort diffs)) = Some top
    /\ length top = n_top
    /\ select_references np_sqrt argsort row table2
       = Some (Some {| filtered_distances := map (distance_to np_sqrt row) kept;
                       filtered_cindex_diffs := diffs;
                       filtered_table2 := kept;
                       sorted_indices := argsort diffs;
                       top_records := top;
                       top_distances := map (distance_to np_sqrt row) top |}).
Proof.
  intros Hmin kept diffs n_top.
  assert (Hrange : Forall (fun i => (i < length kept)%nat)
                     (take n_top (argsort diffs))).
  { apply Forall_take.
    pose proof (argsort_in_range diffs) as H.
    unfold diffs in H at 1. rewrite length_map in H. exact H. }
  destruct (iloc_in_range kept _ Hrange) as (top & Htop & Hlen).
  exists top. split; [exact Htop|]. split.
  - rewrite Hlen, length_take, argsort_length.
    unfold diffs. rewrite length_map.
    pose proof (n_top_bound (length kept) Hmin). unfold n_top. lia.
  - rewrite select_references_unfold. cbv zeta.
    fold kept. fold diffs. fold n_top.
    assert (Hge : (length kept <? MIN_REF_POINTS)%nat = false)
      by (apply Nat.ltb_ge; exact Hmin).
    rewrite Hge, Htop. cbn [mbind option_bind].
    rewrite (iloc_map (distance_to np_sqrt row) kept _ top Htop).
    reflexivity.
Qed.

End Selecting.

(** ** Building the result row *)

Lemma mapM_total {A B : Type} (g : A -> option B) (f : A -> B) (l : list A) :
  (forall x, g x = Some (f x)) -> mapM g l = Some (map f l).
Proof.
  intros H. induction l as [|x l IH]; simpl; [reflexivity|].
  rewrite H, IH. reflexivity.
Qed.

Lemma column_target (records : list PointRec) (col : string) :
  In col target_columns ->
  exists f, (forall r, row_get r col = Some (f r))
            /\ column records col = Some (map f records).
Proof.
  unfold target_columns. simpl. unfold column.
  intros [<-|[<-|[<-|[<-|[<-|[<-|[<-|[<-|[]]]]]]]]];
    [exists Area2000|exists Area2020|exists H2000|exists H2020
    |exists PD2000|exists PD2020|exists NPP2000|exists NPP2020];
    (split; [reflexivity|apply mapM_total; reflexivity]).
Qed.

Lemma idw_total (exponent : nat) (values distances : list num) :
  length values = length distances ->
  is_Some (inverse_distance_weighting values distances exponent).
Proof.
  intros H. rewrite idw_by_entries by exact H. cbv zeta. eauto.
Qed.

Lemma background_total (sel : Selection) (col : string) :
  In col target_columns ->
  length (top_records sel) = length (top_distances sel) ->
  is_Some (background_of sel col).
Proof.
  intros Hcol Hlen. unfold background_of.
  destruct (column_target (top_records sel) col Hcol) as (f & _ & ->).
  cbn [mbind option_bind].
  apply idw_total. rewrite length_map. exact Hlen.
Qed.

Lemma target_keys_nodup : NoDup (concat (map column_keys target_columns)).
Proof. apply (bool_decide_unpack _). vm_compute. reflexivity. Qed.

Lemma trends_only_trend_keys (rr trends : row_dict) (vars : list string)
  (key : string) :
  calculate_temporal_trends rr vars = Some trends ->
  ~ In key (trend_keys_of vars) ->
  trends !! key = None.
Proof.
  intros H Hkey. unfold calculate_temporal_trends in H.
  rewrite (trends_loop_other rr vars ∅ trends key H); [apply lookup_empty|].
  intros var Hvar.
  split; intros ->; apply Hkey; unfold trend_keys_of; apply in_concat;
    eexists; (split; [apply in_map; exact Hvar|]); simpl; auto.
Qed.

(** A name that is none of the trend names of [trend_vars]. *)
Ltac not_a_trend_key :=
  let Hk := fresh "Hk" in
  intros Hk; cbv in Hk;
  repeat (destruct Hk as [Hk|Hk]; [discriminate Hk|]);
  exact Hk.

(** A name that no metric column writes. *)
Ltac not_a_column_key :=
  let col := fresh "col" in
  let Hcol := fresh "Hcol" in
  let Hk := fresh "Hk" in
  intros col Hcol Hk;
  apply list_elem_of_In in Hcol; apply list_elem_of_In in Hk;
  cbv in Hcol;
  repeat (destruct Hcol as [Hcol|Hcol];
          [subst col; cbv in Hk;
           repeat (destruct Hk as [Hk|Hk]; [discriminate Hk|]);
           exact Hk|]);
  exact Hcol.

Section ResultRowOfPoint.

Variable row : PointRec.
Variable sel : Selection.

Lemma build_result_row_stages (r : row_dict) :
  build_result_row row sel = Some r ->
  exists bg_cindex nearest rr trends,
    np_min (filtered_distances sel) = Some nearest
    /\ score_columns row sel
         (initial_result_row row sel
            (if negb (isnan bg_cindex) then fsub (CEI row) bg_cindex
             else NaN) nearest)
         target_columns = Some rr
    /\ calculate_temporal_trends rr trend_vars = Some trends
    /\ r = trends ∪ rr.
Proof.
  unfold build_result_row. intros H.
  destruct (inverse_distance_weighting _ _ _) as [bg|]; [|discriminate].
  cbn [mbind option_bind] in H.
  destruct (np_min _) as [nearest|]; [|discriminate].
  cbn [mbind option_bind] in H.
  destruct (score_columns _ _ _ _) as [rr|] eqn:Hsc; [|discriminate].
  cbn [mbind option_bind] in H.
  destruct (calculate_temporal_trends _ _) as [trends|] eqn:Htr;
    [|discriminate].
  cbn [mbind option_bind] in H.
  injection H as <-.
  exists bg, nearest, rr, trends. auto.
Qed.

Lemma result_row_summary (r : row_dict) :
  build_result_row row sel = Some r ->
  r !! "Nearest_Ref_Distance" = np_min (filtered_distances sel)
  /\ r !! "Ref_Points_Used" = Some (of_nat (length (top_records sel)))
  /\ r !! "pointID" = Some (of_Z (pointID row)).
Proof.
  intros H.
  destruct (build_result_row_stages r H)
    as (bg & nearest & rr & trends & Hmin & Hsc & Htr & ->).
  repeat split.
  - rewrite lookup_union_r
      by (apply (trends_only_trend_keys _ _ _ _ Htr); not_a_trend_key).
    rewrite (score_columns_other _ _ _ _ _ _ Hsc) by not_a_column_key.
    rewrite Hmin. reflexivity.
  - rewrite lookup_union_r
      by (apply (trends_only_trend_keys _ _ _ _ Htr); not_a_trend_key).
    rewrite (score_columns_other _ _ _ _ _ _ Hsc) by not_a_column_key.
    reflexivity.
  - rewrite lookup_union_r
      by (apply (trends_only_trend_keys _ _ _ _ Htr); not_a_trend_key).
    rewrite (score_columns_other _ _ _ _ _ _ Hsc) by not_a_column_key.
    reflexivity.
Qed.

Lemma result_row_columns (r : row_dict) (col : string) :
  build_result_row row sel = Some r ->
  In col target_columns ->
  exists t b,
    row_get row col = Some t
    /\ background_of sel col = Some b
    /\ r !! (col +:+ "_road") = Some t
    /\ r !! (col +:+ "_ref") = Some b
    /\ r !! (col +:+ "_AC") = Some (fst (impact_scores t b))
    /\ r !! (col +:+ "_RC") = Some (snd (impact_scores t b)).
Proof.
  intros H Hcol.
  destruct (build_result_row_stages r H)
    as (bg & nearest & rr & trends & Hmin & Hsc & Htr & ->).
  destruct (score_columns_entries row sel _ _ _ col Hsc target_keys_nodup)
    as (t & b & Ht & Hb & E1 & E2 & E3 & E4);
    [apply list_elem_of_In; exact Hcol|].
  exists t, b. split; [exact Ht|]. split; [exact Hb|].
  rewrite <- E1, <- E2, <- E3, <- E4.
  cbv in Hcol.
  repeat (destruct Hcol as [Hcol|Hcol];
          [subst col;
           repeat split; apply lookup_union_r;
           apply (trends_only_trend_keys _ _ _ _ Htr); not_a_trend_key|]).
  destruct Hcol.
Qed.

End ResultRowOfPoint.

Lemma build_result_row_total (row : PointRec) (sel : Selection) :
  length (top_records sel) = length (top_distances sel) ->
  filtered_distances sel <> [] ->
  exists r, build_result_row row sel = Some r.
Proof.
  intros Hlen Hne. unfold build_result_row.
  destruct (idw_total IDW_POWER (map CEI (top_records sel))
              (top_distances sel)) as [bg ->];
    [rewrite length_map; exact Hlen|].
  cbn [mbind option_bind].
  destruct (filtered_distances sel) as [|d ds] eqn:Ed; [contradiction|].
  cbn [np_min mbind option_bind].
  set (rr0 := initial_result_row _ _ _ _).
  destruct (score_columns_total row sel target_columns rr0) as [rr Hsc].
  { intros col Hcol. apply list_elem_of_In in Hcol. split.
    - destruct (column_target [] col Hcol) as (f & Hf & _).
      rewrite Hf. eauto.
    - apply background_total; assumption. }
  rewrite Hsc. cbn [mbind option_bind].
  assert (Hac : forall col, In col target_columns ->
                  is_Some (rr !! (col +:+ "_AC"))).
  { intros col Hcol. apply list_elem_of_In in Hcol.
    destruct (score_columns_entries row sel _ _ _ col Hsc
                target_keys_nodup Hcol)
      as (t & b & _ & _ & _ & _ & E & _).
    eexists. exact E. }
  destruct (trends_loop_total rr trend_vars ∅) as [trends Htr].
  { intros var Hvar. cbv in Hvar.
    destruct Hvar as [<-|[<-|[<-|[<-|[]]]]].
    - split; [exact (Hac "Area2000" ltac:(cbv; auto 10))
             |exact (Hac "Area2020" ltac:(cbv; auto 10))].
    - split; [exact (Hac "H2000" ltac:(cbv; auto 10))
             |exact (Hac "H2020" ltac:(cbv; auto 10))].
    - split; [exact (Hac "PD2000" ltac:(cbv; auto 10))
             |exact (Hac "PD2020" ltac:(cbv; auto 10))].
    - split; [exact (Hac "NPP2000" ltac:(cbv; auto 10))
             |exact (Hac "NPP2020" ltac:(cbv; auto 10))]. }
  unfold calculate_temporal_trends. rewrite Htr.
  cbn [mbind option_bind]. eauto.
Qed.

(** ** The two sorting routines meet the contract *)

Section InsertionSort.

Variable before : num -> num -> bool.
Hypothesis before_le : forall x y, before x y = true -> sort_leb x y = true.
Hypothesis not_before_ge :
  forall x y, before x y = false -> sort_leb y x = true.

Variable keys : list num.

Local Abbreviation key_le := (key_le keys).

Lemma insert_index_perm (i : nat) (sorted : list nat) :
  Permutation (insert_index before keys i sorted) (i :: sorted).
Proof.
  induction sorted as [|j rest IH]; simpl; [reflexivity|].
  destruct (before _ _); [reflexivity|].
  rewrite IH. apply perm_swap.
Qed.

Lemma insertion_perm (positions : list nat) :
  Permutation (foldr (insert_index before keys) [] positions) positions.
Proof.
  induction positions as [|i positions IH]; simpl; [reflexivity|].
  rewrite insert_index_perm, IH. reflexivity.
Qed.

Lemma insert_index_sorted (i : nat) (sorted : list nat) :
  StronglySorted key_le sorted ->
  StronglySorted key_le (insert_index before keys i sorted).
Proof.
  induction 1 as [|j rest Hrest IH Hj]; simpl.
  - repeat constructor.
  - destruct (before (nth i keys NaN) (nth j keys NaN)) eqn:E.
    + constructor; [constructor; assumption|].
      apply before_le in E.
      constructor; [exact E|].
      apply List.Forall_forall. intros k Hk.
      rewrite List.Forall_forall in Hj.
      exact (sort_leb_trans _ _ _ E (Hj k Hk)).
    + constructor; [exact IH|].
      apply List.Forall_forall. intros k Hk.
      apply (Permutation_in _ (insert_index_perm i rest)) in Hk.
      destruct Hk as [<-|Hk].
      * apply not_before_ge. exact E.
      * rewrite List.Forall_forall in Hj. exact (Hj k Hk).
Qed.

Lemma insertion_sorted (positions : list nat) :
  StronglySorted key_le (foldr (insert_index before keys) [] positions).
Proof.
  induction positions as [|i positions IH]; simpl.
  - constructor.
  - apply insert_index_sorted. exact IH.
Qed.

Lemma strongly_sorted_lookup (l : list nat) (p q i j : nat) :
  StronglySorted key_le l ->
  (p < q)%nat -> l !! p = Some i -> l !! q = Some j ->
  key_le i j.
Proof.
  intros H. revert p q.
  induction H as [|x l Hl IH Hx]; intros p q Hpq Hp Hq.
  - discriminate.
  - destruct q as [|q]; [lia|].
    destruct p as [|p]; simpl in *.
    + injection Hp as <-.
      rewrite List.Forall_forall in Hx. apply Hx.
      apply list_elem_of_In, list_elem_of_lookup. eauto.
    + apply (IH p q); [lia|assumption|assumption].
Qed.

Lemma insertion_argsort_ascending :
  ascending keys (insertion_argsort before keys).
Proof.
  intros p q i j ki kj Hpq Hp Hq Hi Hj.
  pose proof (strongly_sorted_lookup _ p q i j
                (insertion_sorted (seq 0 (length keys))) Hpq Hp Hq) as H.
  unfold key_le in H.
  rewrite (nth_lookup_Some _ _ NaN _ Hi) in H.
  rewrite (nth_lookup_Some _ _ NaN _ Hj) in H.
  exact H.
Qed.

End InsertionSort.

Lemma insertion_argsort_contract (before : num -> num -> bool) :
  (forall x y, before x y = true -> sort_leb x y = true) ->
  (forall x y, before x y = false -> sort_leb y x = true) ->
  argsort_contract (insertion_argsort before).
Proof.
  intros H1 H2 keys. split.
  - apply insertion_perm.
  - apply insertion_argsort_ascending; assumption.
Qed.

Lemma stable_argsort_contract : argsort_contract stable_argsort.
Proof.
  apply insertion_argsort_contract.
  - auto.
  - apply sort_leb_false.
Qed.

Lemma reversing_argsort_contract : argsort_contract reversing_argsort.
Proof.
  apply insertion_argsort_contract.
  - intros x y H. apply negb_true_iff in H. apply sort_leb_false. exact H.
  - intros x y H. apply negb_false_iff in H. exact H.
Qed.

(** ** The smallest distance *)

Lemma fltb_not_nan (x y : num) : fltb x y = true -> isnan x = false.
Proof. destruct x, y; simpl; auto; discriminate. Qed.

Lemma fleb_refl (x : num) : isnan x = false -> fleb x x = true.
Proof.
  destruct x; simpl; auto. intros _. apply Qle_bool_iff. lra.
Qed.

Lemma fltb_fleb (x y : num) : fltb x y = true -> fleb x y = true.
Proof.
  destruct x, y; simpl; auto.
  rewrite Qltb_lt, Qle_bool_iff. lra.
Qed.

Lemma fltb_false_fleb (x y : num) :
  isnan x = false -> isnan y = false -> fltb x y = false -> fleb y x = true.
Proof.
  destruct x, y; simpl; auto; try discriminate.
  rewrite Qltb_ge, Qle_bool_iff. auto.
Qed.

Lemma fleb_trans (x y z : num) :
  fleb x y = true -> fleb y z = true -> fleb x z = true.
Proof.
  destruct x, y, z; simpl; auto; try discriminate.
  rewrite !Qle_bool_iff. lra.
Qed.

Create HintDb num_order.

#[local] Hint Resolve fleb_refl fltb_fleb fltb_false_fleb : num_order.

Lemma foldl_np_minimum (acc : num) (a : list num) :
  isnan acc = false ->
  Forall (fun d => isnan d = false) a ->
  let m := foldl np_minimum acc a in
  In m (acc :: a) /\ isnan m = false
  /\ fleb m acc = true /\ Forall (fun d => fleb m d = true) a.
Proof.
  intros Hacc Ha. revert acc Hacc.
  induction Ha as [|d a Hd _ IH]; intros acc Hacc; simpl.
  - repeat split; auto with num_order.
  - assert (Hmin : (np_minimum acc d = acc \/ np_minimum acc d = d)
                   /\ isnan (np_minimum acc d) = false
                   /\ fleb (np_minimum acc d) acc = true
                   /\ fleb (np_minimum acc d) d = true).
    { unfold np_minimum. rewrite Hacc, orb_false_r.
      destruct (fltb acc d) eqn:E; repeat split; auto with num_order. }
    destruct Hmin as (Hwhich & Hnan & Hle1 & Hle2).
    destruct (IH (np_minimum acc d) Hnan) as (Hin & Hm & Hle & Hall).
    repeat split.
    + destruct Hin as [Hin|Hin]; [|auto].
      rewrite <- Hin. destruct Hwhich as [->| ->]; auto.
    + exact Hm.
    + exact (fleb_trans _ _ _ Hle Hle1).
    + constructor; [exact (fleb_trans _ _ _ Hle Hle2)|exact Hall].
Qed.

Lemma np_min_spec (a : list num) (m : num) :
  Forall (fun d => isnan d = false) a ->
  np_min a = Some m ->
  In m a /\ Forall (fun d => fleb m d = true) a.
Proof.
  destruct a as [|x a]; simpl; [discriminate|].
  intros Ha [= <-].
  inversion Ha as [|? ? Hx Ha']; subst.
  destruct (foldl_np_minimum x a Hx Ha') as (Hin & _ & Hle & Hall).
  split; [exact Hin|]. constructor; assumption.
Qed.

(** ** One treatment point *)

Section OnePoint.

Variable np_sqrt : num -> num.
Variable argsort : list num -> list nat.

Lemma kept_candidates_in (row c : PointRec) (table2 : list PointRec) :
  In c (kept_candidates np_sqrt row table2)
  <-> In c table2
      /\ fltb (distance_to np_sqrt row c) THRESHOLD_DISTANCE = true.
Proof. unfold kept_candidates. apply filter_In. Qed.

Lemma kept_distances_not_nan (row : PointRec) (table2 : list PointRec) :
  Forall (fun d => isnan d = false)
    (map (distance_to np_sqrt row) (kept_candidates np_sqrt row table2)).
Proof.
  apply List.Forall_forall. intros d Hd.
  apply in_map_iff in Hd. destruct Hd as (c & <- & Hc).
  apply kept_candidates_in in Hc. destruct Hc as [_ Hc].
  exact (fltb_not_nan _ _ Hc).
Qed.

Lemma select_references_inv (row : PointRec) (table2 : list PointRec)
  (sel : Selection) :
  select_references np_sqrt argsort row table2 = Some (Some sel) ->
  let kept := kept_candidates np_sqrt row table2 in
  (MIN_REF_POINTS <= length kept)%nat
  /\ filtered_table2 sel = kept
  /\ filtered_distances sel = map (distance_to np_sqrt row) kept
  /\ filtered_cindex_diffs sel = map (index_difference row) kept
  /\ sorted_indices sel = argsort (map (index_difference row) kept)
  /\ iloc kept (take (Z.to_nat (n_top_of (length kept))) (sorted_indices sel))
     = Some (top_records sel)
  /\ top_distances sel = map (distance_to np_sqrt row) (top_records sel).
Proof.
  rewrite select_references_unfold. cbv zeta.
  destruct (length _ <? MIN_REF_POINTS)%nat eqn:E; [discriminate|].
  apply Nat.ltb_ge in E.
  destruct (iloc (kept_candidates np_sqrt row table2) _) as [top|] eqn:Etop;
    [|discriminate].
  cbn [mbind option_bind].
  rewrite (iloc_map (distance_to np_sqrt row) _ _ top Etop).
  cbn [mbind option_bind].
  intros [= <-]. simpl. auto 10.
Qed.

Lemma process_point_skipped (row : PointRec) (table2 : list PointRec) :
  (length (kept_candidates np_sqrt row table2) < MIN_REF_POINTS)%nat ->
  process_point np_sqrt argsort row table2 = Some (Skipped (skip_record row)).
Proof.
  intros H. unfold process_point.
  rewrite select_references_skipped by exact H. reflexivity.
Qed.

Lemma process_point_inv (row : PointRec) (table2 : list PointRec)
  (r : row_dict) :
  process_point np_sqrt argsort row table2 = Some (Result r) ->
  exists sel,
    select_references np_sqrt argsort row table2 = Some (Some sel)
    /\ build_result_row row sel = Some r.
Proof.
  unfold process_point. intros H.
  destruct (select_references np_sqrt argsort row table2) as [[sel|]|];
    cbn [mbind option_bind] in H; try discriminate H.
  destruct (build_result_row row sel) as [r'|] eqn:E;
    cbn [mbind option_bind] in H; [|discriminate H].
  injection H as <-. eauto.
Qed.

Hypothesis argsort_ok : argsort_contract argsort.

Lemma process_point_result (row : PointRec) (table2 : list PointRec) :
  (MIN_REF_POINTS <= length (kept_candidates np_sqrt row table2))%nat ->
  exists sel r,
    select_references np_sqrt argsort row table2 = Some (Some sel)
    /\ build_result_row row sel = Some r
    /\ process_point np_sqrt argsort row table2 = Some (Result r).
Proof.
  intros Hmin.
  destruct (select_references_selected np_sqrt argsort argsort_ok
              row table2 Hmin) as (top & _ & Hlen & Hsel).
  eexists. 
  edestruct (build_result_row_total row) as [r Hr];
    [| |exists r; split; [exact Hsel|split; [exact Hr|]]].
  - simpl. rewrite length_map. reflexivity.
  - simpl. intros E. apply (f_equal length) in E.
    rewrite length_map in E. simpl in E.
    unfold MIN_REF_POINTS in Hmin. lia.
  - unfold process_point. rewrite Hsel. cbn [mbind option_bind].
    rewrite Hr. reflexivity.
Qed.

End OnePoint.

(** ** The reference subset *)

(** C1. For a treatment point with at least [MIN_REF_POINTS] candidates
    strictly within the distance threshold (a point that is not skipped),
    the selection succeeds and a result row is produced; the reference
    subset has exactly [max(MIN_REF_POINTS, floor(filtered_count *
    TOP_PERCENTILE))] rows, with as many distances, where
    [filtered_count] is the number of candidates within the threshold;
    so it has at least [MIN_REF_POINTS] rows; and that size is what the
    result row reports as [Ref_Points_Used]. *)
Theorem reference_subset_size (np_sqrt : num -> num)
  (argsort : list num -> list nat) :
  argsort_contract argsort ->
  forall (row : PointRec) (table2 : list PointRec),
  let filtered_count := length (kept_candidates np_sqrt row table2) in
  (MIN_REF_POINTS <= filtered_count)%nat ->
  exists sel r,
    select_references np_sqrt argsort row table2 = Some (Some sel)
    /\ process_point np_sqrt argsort row table2 = Some (Result r)
    /\ filtered_table2 sel = kept_candidates np_sqrt row table2
    /\ length (top_records sel)
       = Nat.max MIN_REF_POINTS
           (Z.to_nat (Qfloor (inject_Z (Z.of_nat filtered_count)
                              * TOP_PERCENTILE)))
    /\ (MIN_REF_POINTS <= length (top_records sel))%nat
    /\ length (top_distances sel) = length (top_records sel)
    /\ r !! "Ref_Points_Used" = Some (of_nat (length (top_records sel))).
Proof.
  intros Hsort row table2 filtered_count Hmin.
  destruct (process_point_result np_sqrt argsort Hsort row table2 Hmin)
    as (sel & r & Hsel & Hrow & Hpoint).
  destruct (select_references_selected np_sqrt argsort Hsort row table2 Hmin)
    as (top & _ & Hlen & Hsel').
  rewrite Hsel in Hsel'. injection Hsel' as ->.
  eexists. exists r. split; [exact Hsel|]. split; [exact Hpoint|].
  cbn [filtered_table2 top_records top_distances].
  assert (Hsize : Z.to_nat (n_top_of (length
                     (kept_candidates np_sqrt row table2)))
                  = Nat.max MIN_REF_POINTS
                      (Z.to_nat (Qfloor (inject_Z (Z.of_nat filtered_count)
                                         * TOP_PERCENTILE)))).
  { rewrite n_top_floor. fold filtered_count.
    rewrite Z2Nat.inj_max, Nat2Z.id. reflexivity. }
  split; [reflexivity|].
  split; [rewrite Hlen; exact Hsize|].
  split; [rewrite Hlen, Hsize; apply Nat.le_max_l|].
  split; [apply length_map|].
  destruct (result_row_summary row _ r Hrow) as (_ & Hused & _).
  exact Hused.
Qed.

(** The theorem at the example tables: four candidates are within the
    threshold of the point at the origin, and three are selected. *)
Lemma reference_subset_size_witness :
  exists sel r,
    select_references sqrt_floor stable_argsort ex_row ex_table2
    = Some (Some sel)
    /\ process_point sqrt_floor stable_argsort ex_row ex_table2
       = Some (Result r)
    /\ length (filtered_table2 sel) = 4%nat
    /\ length (top_records sel) = 3%nat
    /\ r !! "Ref_Points_Used" = Some (Fin 3).
Proof.
  destruct (reference_subset_size sqrt_floor stable_argsort
              stable_argsort_contract ex_row ex_table2)
    as (sel & r & Hsel & Hpoint & Hkept & Hlen & _ & _ & Hused).
  - vm_compute. lia.
  - exists sel, r. split; [exact Hsel|]. split; [exact Hpoint|].
    rewrite Hkept. split; [reflexivity|].
    split; [rewrite Hlen; reflexivity|].
    rewrite Hused, Hlen. reflexivity.
Defined.

(** ** The skip ledger *)

Section SkipLedger.

Variable np_sqrt : num -> num.
Variable argsort : list num -> list nat.
Hypothesis argsort_ok : argsort_contract argsort.
Variable table2 : list PointRec.

Local Abbreviation too_few := (too_few np_sqrt table2).

Lemma process_rows_partition (table1 : list PointRec)
  (rs : list row_dict) (ss : list SkipRecord) :
  exists results,
    process_rows np_sqrt argsort table1 table2 rs ss
    = Some (rs ++ results,
            ss ++ map skip_record (List.filter too_few table1))
    /\ Forall2 (fun row r =>
                 process_point np_sqrt argsort row table2 = Some (Result r))
         (List.filter (fun row => negb (too_few row)) table1) results.
Proof.
  revert rs ss.
  induction table1 as [|row table1 IH]; intros rs ss; simpl.
  - exists []. rewrite !app_nil_r. split; [reflexivity|constructor].
  - destruct (too_few row) eqn:E; simpl.
    + unfold too_few in E. apply Nat.ltb_lt in E.
      rewrite (process_point_skipped np_sqrt argsort row table2 E).
      cbn [mbind option_bind].
      destruct (IH rs (ss ++ [skip_record row])) as (results & Hrun & Hall).
      exists results. rewrite Hrun, <- app_assoc. auto.
    + unfold too_few in E. apply Nat.ltb_ge in E.
      destruct (process_point_result np_sqrt argsort argsort_ok
                  row table2 E) as (sel & r & _ & _ & Hpoint).
      rewrite Hpoint. cbn [mbind option_bind].
      destruct (IH (rs ++ [r]) ss) as (results & Hrun & Hall).
      exists (r :: results). rewrite Hrun, <- app_assoc.
      split; [reflexivity|]. constructor; assumption.
Qed.

End SkipLedger.

(** C2. A candidate is kept exactly when its distance to the treatment
    point is strictly below the threshold (a distance that is a number
    [q] is kept when [q < 50000]).  A treatment point with fewer than
    [MIN_REF_POINTS] kept candidates yields a skip record with its
    [pointID] and the reason "Not enough reference points", and no result
    row; any other treatment point yields a result row and no skip
    record.  So the loop ends with the skip records of exactly the
    points with too few candidates, and one result row for each of the
    other points, both in the order of the treatment table. *)
Theorem skip_ledger (np_sqrt : num -> num) (argsort : list num -> list nat) :
  argsort_contract argsort ->
  forall (table1 table2 : list PointRec),
  let too_few := too_few np_sqrt table2 in
  (forall row c,
     In c (kept_candidates np_sqrt row table2)
     <-> In c table2
         /\ fltb (distance_to np_sqrt row c) THRESHOLD_DISTANCE = true)
  /\ (forall q, fltb (Fin q) THRESHOLD_DISTANCE = true <-> q < 50000)
  /\ (forall row, too_few row = true ->
        process_point np_sqrt argsort row table2
        = Some (Skipped {| skip_pointID := pointID row;
                           skip_Reason := "Not enough reference points" |}))
  /\ (forall row, too_few row = false ->
        exists r,
          process_point np_sqrt argsort row table2 = Some (Result r))
  /\ exists result_rows skipped_rows,
       process_rows np_sqrt argsort table1 table2 [] []
       = Some (result_rows, skipped_rows)
       /\ skipped_rows
          = map (fun row =>
                   {| skip_pointID := pointID row;
                      skip_Reason := "Not enough reference points" |})
              (List.filter too_few table1)
       /\ Forall2 (fun row r =>
                    process_point np_sqrt argsort row table2
                    = Some (Result r))
            (List.filter (fun row => negb (too_few row)) table1)
            result_rows.
Proof.
  intros Hsort table1 table2 too_few.
  split; [intros row c; apply kept_candidates_in|].
  split; [intros q; apply Qltb_lt|].
  split.
  { intros row H. apply Nat.ltb_lt in H.
    exact (process_point_skipped np_sqrt argsort row table2 H). }
  split.
  { intros row H. apply Nat.ltb_ge in H.
    destruct (process_point_result np_sqrt argsort Hsort row table2 H)
      as (sel & r & _ & _ & Hpoint).
    eauto. }
  destruct (process_rows_partition np_sqrt argsort Hsort table2 table1 [] [])
    as (results & Hrun & Hall).
  exists results, (map skip_record (List.filter too_few table1)).
  split; [exact Hrun|]. split; [reflexivity|exact Hall].
Qed.

(** The theorem at the example tables: the point at the origin has four
    candidates within the threshold; the other point has two, a third
    being at exactly 50000, and is skipped. *)
Lemma skip_ledger_witness :
  exists r,
    process_rows sqrt_floor stable_argsort [ex_row; ex_row_far] ex_table2
      [] []
    = Some ([r], [{| skip_pointID := 2;
                     skip_Reason := "Not enough reference points" |}])
    /\ map (distance_to sqrt_floor ex_row_far) ex_table2
       = [Fin 49996; Fin 49999; Fin 50003; Fin 50000; Fin 78099].
Proof.
  destruct (skip_ledger sqrt_floor stable_argsort stable_argsort_contract
              [ex_row; ex_row_far] ex_table2)
    as (_ & _ & _ & _ & rs & ss & Hrun & Hss & Hrs).
  vm_compute in Hss. subst ss.
  change (List.filter _ [ex_row; ex_row_far]) with [ex_row] in Hrs.
  inversion Hrs as [|? r ? rest _ Hrest]; subst.
  inversion Hrest; subst.
  exists r. split; [exact Hrun|].
  vm_compute. reflexivity.
Defined.

(** ** The nearest reference distance *)

(** C10. The [Nearest_Ref_Distance] of a result row is the smallest
    distance among all candidates strictly within the threshold: it is
    the distance of one of them and no candidate within the threshold is
    closer.  It is not taken over the reference subset: at the example
    tables the nearest candidate is left out of the subset, and the
    reported distance is below every distance used for the background
    estimate. *)
Theorem nearest_reference_distance :
  (forall (np_sqrt : num -> num) (argsort : list num -> list nat)
          (row : PointRec) (table2 : list PointRec) (r : row_dict),
     process_point np_sqrt argsort row table2 = Some (Result r) ->
     exists nearest,
       r !! "Nearest_Ref_Distance" = Some nearest
       /\ (exists c, In c (kept_candidates np_sqrt row table2)
                     /\ nearest = distance_to np_sqrt row c)
       /\ (forall c, In c (kept_candidates np_sqrt row table2) ->
             fleb nearest (distance_to np_sqrt row c) = true))
  /\ (exists sel r nearest,
        select_references sqrt_floor stable_argsort ex_row ex_table2
        = Some (Some sel)
        /\ process_point sqrt_floor stable_argsort ex_row ex_table2
           = Some (Result r)
        /\ r !! "Nearest_Ref_Distance" = Some nearest
        /\ Forall (fun d => fltb nearest d = true) (top_distances sel)).
Proof.
  split.
  - intros np_sqrt argsort row table2 r Hpoint.
    destruct (process_point_inv np_sqrt argsort row table2 r Hpoint)
      as (sel & Hsel & Hrow).
    destruct (select_references_inv np_sqrt argsort row table2 sel Hsel)
      as (Hmin & _ & Hdists & _).
    destruct (result_row_summary row sel r Hrow) as (Hnearest & _).
    rewrite Hdists in Hnearest.
    destruct (np_min (map (distance_to np_sqrt row)
                        (kept_candidates np_sqrt row table2)))
      as [nearest|] eqn:Emin.
    + exists nearest. split; [exact Hnearest|].
      destruct (np_min_spec _ nearest
                  (kept_distances_not_nan np_sqrt row table2) Emin)
        as [Hin Hall].
      split.
      * apply in_map_iff in Hin. destruct Hin as (c & <- & Hc). eauto.
      * intros c Hc. rewrite List.Forall_forall in Hall.
        apply Hall. apply in_map. exact Hc.
    + destruct (kept_candidates np_sqrt row table2); [|discriminate].
      unfold MIN_REF_POINTS in Hmin. simpl in Hmin. lia.
  - destruct (process_point sqrt_floor stable_argsort ex_row ex_table2)
      as [[s|r]|] eqn:Hpoint; try (vm_compute in Hpoint; discriminate).
    destruct (process_point_inv _ _ _ _ r Hpoint) as (sel & Hsel & Hrow).
    exists sel, r, (Fin 1).
    split; [exact Hsel|]. split; [reflexivity|].
    destruct (result_row_summary ex_row sel r Hrow) as (Hnearest & _).
    vm_compute in Hsel. injection Hsel as <-.
    split; [rewrite Hnearest; vm_compute; reflexivity|].
    repeat constructor.
Qed.

(** The first part of the theorem at the example tables: the reported
    distance is 1, the distance of the candidate at (0, 1). *)
Lemma nearest_reference_distance_witness :
  exists r c,
    process_point sqrt_floor stable_argsort ex_row ex_table2
    = Some (Result r)
    /\ r !! "Nearest_Ref_Distance" = Some (distance_to sqrt_floor ex_row c)
    /\ In c (kept_candidates sqrt_floor ex_row ex_table2).
Proof.
  destruct (process_point sqrt_floor stable_argsort ex_row ex_table2)
    as [[s|r]|] eqn:Hpoint; try (vm_compute in Hpoint; discriminate).
  destruct nearest_reference_distance as [Hall _].
  destruct (Hall sqrt_floor stable_argsort ex_row ex_table2 r Hpoint)
    as (nearest & Hnearest & (c & Hc & ->) & _).
  exists r, c. auto.
Defined.

(** The distance of lines 129 to 132 is the function of lines 25 to 27. *)
Lemma distance_to_is_euclidean (np_sqrt : num -> num) (row c : PointRec) :
  distance_to np_sqrt row c
  = euclidean_distance np_sqrt (X row) (Y row) (X c) (Y c).
Proof. reflexivity. Qed.

(** ** Absolute and relative change in a result row *)

(** The two changes as functions of a valid treatment value and a valid
    background estimate. *)
Lemma impact_scores_valid (treatment bg_mean : num) :
  is_valid_value treatment = true -> is_valid_value bg_mean = true ->
  let denominator := fadd (fabs treatment) (fabs bg_mean) in
  fst (impact_scores treatment bg_mean) = fsub treatment bg_mean
  /\ (feqb denominator (Fin 0) = true ->
      snd (impact_scores treatment bg_mean) = NaN)
  /\ (feqb denominator (Fin 0) = false ->
      snd (impact_scores treatment bg_mean)
      =f= fmul (fdiv (fsub treatment bg_mean) denominator) (Fin 100)).
Proof.
  intros Vt Vb denominator. unfold impact_scores.
  rewrite Vt, Vb. cbn [andb fst snd]. cbv zeta.
  assert (E : feqb (fadd (fabs bg_mean) (fabs treatment)) (Fin 0)
              = feqb denominator (Fin 0))
    by (apply feqb_feq, fadd_comm).
  rewrite E.
  split; [reflexivity|].
  split; intros ->; cbn [negb]; [reflexivity|].
  apply fmul_feq, fdiv_feq, fadd_comm.
Qed.

(** A treatment value 10 against a background 0. *)
Lemma impact_scores_scenario (treatment bg_mean : num) :
  treatment =f= Fin 10 -> bg_mean =f= Fin 0 ->
  fst (impact_scores treatment bg_mean) =f= Fin 10
  /\ snd (impact_scores treatment bg_mean) =f= Fin 100.
Proof.
  destruct treatment as [| | |a], bg_mean as [| | |c]; simpl;
    try contradiction.
  intros Ha Hc. unfold impact_scores, is_valid_value, py_in, INVALID_VALUES.
  cbn [existsb feqb isnan negb andb orb]. rewrite !orb_false_r.
  rewrite (Qeq_bool_comp a 10 (-9999) Ha), (Qeq_bool_comp c 0 (-9999) Hc).
  change (Qeq_bool 10 (-9999)) with false.
  change (Qeq_bool 0 (-9999)) with false.
  cbn [negb andb fabs fadd fsub feqb fst snd].
  assert (Hden : Qabs c + Qabs a == 10).
  { rewrite Ha, Hc. reflexivity. }
  rewrite (Qeq_bool_comp _ 10 0 Hden).
  change (Qeq_bool 10 0) with false.
  cbn [negb fdiv]. rewrite (Qeq_bool_comp _ 10 0 Hden).
  change (Qeq_bool 10 0) with false.
  cbn [fmul feq].
  split.
  - rewrite Ha, Hc. reflexivity.
  - rewrite Hden, Ha, Hc. reflexivity.
Qed.

(** C6. In a result row, for every metric [col]: [col_road] is the
    treatment value and [col_ref] the background estimate.  When both are
    valid (neither NaN nor the sentinel), [col_AC] is treatment minus
    background and [col_RC] is that difference over
    [|treatment| + |background|], times 100, or NaN when this denominator
    is zero; when one of them is not valid, both are NaN.  [col_RC] is NaN
    or a number in [-200, 200].  A treatment value 10 with background 0
    gives an absolute change 10 and a relative change 100. *)
Theorem impact_scores_in_result_row (np_sqrt : num -> num)
  (argsort : list num -> list nat) (row : PointRec)
  (table2 : list PointRec) (r : row_dict) (col : string) :
  process_point np_sqrt argsort row table2 = Some (Result r) ->
  In col target_columns ->
  exists treatment background ac rc,
    row_get row col = Some treatment
    /\ r !! (col +:+ "_road") = Some treatment
    /\ r !! (col +:+ "_ref") = Some background
    /\ r !! (col +:+ "_AC") = Some ac
    /\ r !! (col +:+ "_RC") = Some rc
    /\ (is_valid_value treatment = true ->
        is_valid_value background = true ->
        let denominator := fadd (fabs treatment) (fabs background) in
        ac = fsub treatment background
        /\ (feqb denominator (Fin 0) = true -> rc = NaN)
        /\ (feqb denominator (Fin 0) = false ->
            rc =f= fmul (fdiv ac denominator) (Fin 100)))
    /\ (is_valid_value treatment = false
        \/ is_valid_value background = false ->
        ac = NaN /\ rc = NaN)
    /\ (rc = NaN \/ exists q, rc = Fin q /\ -200 <= q <= 200)
    /\ (treatment =f= Fin 10 -> background =f= Fin 0 ->
        ac =f= Fin 10 /\ rc =f= Fin 100).
Proof.
  intros Hpoint Hcol.
  destruct (process_point_inv np_sqrt argsort row table2 r Hpoint)
    as (sel & _ & Hrow).
  destruct (result_row_columns row sel r col Hrow Hcol)
    as (t & b & Ht & _ & Eroad & Eref & Eac & Erc).
  exists t, b, (fst (impact_scores t b)), (snd (impact_scores t b)).
  do 5 (split; [assumption|]).
  split.
  { intros Vt Vb.
    destruct (impact_scores_valid t b Vt Vb) as (Hac & Hzero & Hrc).
    cbv zeta. rewrite Hac. auto. }
  split.
  { unfold impact_scores.
    intros [V|V]; rewrite V; [|rewrite andb_false_r]; simpl; auto. }
  split.
  { destruct (impact_scores_bound t b) as [H|(q & H & Hq)]; [auto|].
    right. exists q. split; [exact H|]. lra. }
  apply impact_scores_scenario.
Qed.

(** The theorem at the example tables: the metric [Area2000] has
    treatment value 10 and background 0. *)
Lemma impact_scores_in_result_row_witness :
  exists r ac rc,
    process_point sqrt_floor stable_argsort ex_row ex_table2
    = Some (Result r)
    /\ r !! "Area2000_road" = Some (Fin 10)
    /\ r !! "Area2000_ref" = Some (Fin (0 # 351562500))
    /\ r !! "Area2000_AC" = Some ac /\ ac =f= Fin 10
    /\ r !! "Area2000_RC" = Some rc /\ rc =f= Fin 100.
Proof.
  destruct (process_point sqrt_floor stable_argsort ex_row ex_table2)
    as [[s|r]|] eqn:Hpoint; try (vm_compute in Hpoint; discriminate).
  destruct (impact_scores_in_result_row sqrt_floor stable_argsort
              ex_row ex_table2 r "Area2000" Hpoint)
    as (t & b & ac & rc & Ht & Eroad & Eref & Eac & Erc & _ & _ & _ & Hex).
  { simpl. auto. }
  injection Ht as <-.
  assert (Hcell : result_cell
                    (process_point sqrt_floor stable_argsort ex_row ex_table2)
                    "Area2000_ref"
                  = Some (Fin (0 # 351562500)))
    by (vm_compute; reflexivity).
  rewrite Hpoint in Hcell. cbn [result_cell] in Hcell.
  pose proof (eq_trans (eq_sym Eref) Hcell) as Hb.
  injection Hb as ->.
  destruct (Hex (Qeq_refl 10) eq_refl) as [Hac Hrc].
  exists r, ac, rc. auto 10.
Defined.

(** ** The ranking of the kept candidates *)

(** The contract does not make the ranking stable: [np.argsort] is
    called with its default kind, for which only the contract above is
    documented, and a sort that meets the contract may return equal keys
    in another order than the original one.  With [reversing_argsort], on
    four candidates with the same index difference, the ranking is
    3, 2, 1, 0. *)
Lemma ranking_need_not_be_stable :
  ~ (forall (np_sqrt : num -> num) (argsort : list num -> list nat),
       argsort_contract argsort ->
       forall (row : PointRec) (table2 : list PointRec) (sel : Selection),
         select_references np_sqrt argsort row table2 = Some (Some sel) ->
         ties_in_original_order
           (filtered_cindex_diffs sel) (sorted_indices sel)).
Proof.
  intros H.
  destruct (select_references sqrt_floor reversing_argsort
              ex_row ex_tied_table2) as [[sel|]|] eqn:Hsel;
    try (vm_compute in Hsel; discriminate).
  specialize (H sqrt_floor reversing_argsort reversing_argsort_contract
                ex_row ex_tied_table2 sel Hsel).
  vm_compute in Hsel. injection Hsel as <-.
  cbn [filtered_cindex_diffs sorted_indices] in H.
  specialize (H 0%nat 1%nat 3%nat 2%nat).
  cbn [lookup list_lookup] in H.
  specialize (H _ _ ltac:(lia) eq_refl eq_refl eq_refl eq_refl eq_refl).
  lia.
Qed.

(** With the same sort, the reference subset leaves out the first of four
    equally similar candidates rather than the last. *)
Lemma reversed_ties_change_the_subset :
  option_map (option_map top_records)
    (select_references sqrt_floor reversing_argsort ex_row ex_tied_table2)
  = Some (Some [candidate 13 0 5 0.5; candidate 12 6 8 0.5;
                candidate 11 3 4 0.5])
  /\ option_map (option_map top_records)
       (select_references sqrt_floor stable_argsort ex_row ex_tied_table2)
     = Some (Some [candidate 10 0 1 0.5; candidate 11 3 4 0.5;
                   candidate 12 6 8 0.5]).
Proof. split; vm_compute; reflexivity. Qed.

(** X23. The kept candidates are ranked by ascending index
    difference: the ranking is a permutation of their positions, in
    ascending order of the index difference (NaN last); the reference
    subset consists of the candidates at the first [n_top] ranks, so a
    candidate at a later rank differs at least as much as any selected
    one.  The order of candidates with equal index difference is the one
    [np.argsort] returns. *)
Theorem ranking_is_ascending (np_sqrt : num -> num)
  (argsort : list num -> list nat) :
  argsort_contract argsort ->
  forall (row : PointRec) (table2 : list PointRec) (sel : Selection),
  select_references np_sqrt argsort row table2 = Some (Some sel) ->
  let kept := kept_candidates np_sqrt row table2 in
  let n_top := Z.to_nat (n_top_of (length kept)) in
  filtered_cindex_diffs sel = map (index_difference row) kept
  /\ Permutation (sorted_indices sel) (seq 0 (length kept))
  /\ ascending (filtered_cindex_diffs sel) (sorted_indices sel)
  /\ iloc kept (take n_top (sorted_indices sel)) = Some (top_records sel)
  /\ (forall k c q j c',
        top_records sel !! k = Some c ->
        (n_top <= q)%nat ->
        sorted_indices sel !! q = Some j ->
        kept !! j = Some c' ->
        sort_leb (index_difference row c) (index_difference row c') = true).
Proof.
  intros Hsort row table2 sel Hsel kept n_top.
  destruct (select_references_inv np_sqrt argsort row table2 sel Hsel)
    as (Hmin & _ & _ & Hdiffs & Hsorted & Htop & _).
  fold kept in Hdiffs, Hsorted, Htop, Hmin. fold n_top in Htop.
  destruct (Hsort (map (index_difference row) kept)) as [Hperm Hasc].
  rewrite length_map in Hperm. rewrite <- Hsorted in Hperm, Hasc.
  split; [exact Hdiffs|]. split; [exact Hperm|].
  split; [rewrite Hdiffs; exact Hasc|]. split; [exact Htop|].
  intros k c q j c' Hk Hq Hj Hc'.
  destruct (iloc_elem _ _ _ k c Htop Hk) as (i & Hi & Hc).
  apply lookup_take_Some in Hi. destruct Hi as [Hi Hlt].
  apply (Hasc k q i j); try assumption; try lia.
  - rewrite list_lookup_fmap, Hc. reflexivity.
  - rewrite list_lookup_fmap, Hc'. reflexivity.
Qed.

(** The theorem at the example tables: the ranking of the four kept
    candidates is 1, 2, 3, 0. *)
Lemma ranking_is_ascending_witness :
  exists sel,
    select_references sqrt_floor stable_argsort ex_row ex_table2
    = Some (Some sel)
    /\ sorted_indices sel = [1; 2; 3; 0]%nat
    /\ ascending (filtered_cindex_diffs sel) (sorted_indices sel).
Proof.
  destruct (select_references sqrt_floor stable_argsort ex_row ex_table2)
    as [[sel|]|] eqn:Hsel; try (vm_compute in Hsel; discriminate).
  destruct (ranking_is_ascending sqrt_floor stable_argsort
              stable_argsort_contract ex_row ex_table2 sel Hsel)
    as (_ & _ & Hasc & _).
  exists sel. split; [reflexivity|]. split; [|exact Hasc].
  vm_compute in Hsel. injection Hsel as <-. reflexivity.
Defined.

(** ** Determinism of the batch *)

Section Determinism.

Variable np_sqrt : num -> num.
Variable argsort : list num -> list nat.






End Determinism.

(** *** Rankings without ties *)






Section AnySort.

Variable np_sqrt : num -> num.
Variables argsort1 argsort2 : list num -> list nat.
Hypothesis argsort1_ok : argsort_contract argsort1.
Hypothesis argsort2_ok : argsort_contract argsort2.




End AnySort.




(** * Further properties *)

(** ** More on the Inverse-Distance Aggregator *)

(** X5. The aggregator raises (IndexError: the boolean mask does not fit
    the distances) exactly when there is at least one value and the two
    arrays have different lengths.  Without any value the mask is the empty
    list, which selects nothing from the distances however many there are,
    and the result is NaN. *)
Theorem idw_raises_exactly_on_a_length_mismatch (exponent : nat)
  (values distances : list num) :
  (inverse_distance_weighting values distances exponent = None
   <-> values <> [] /\ length values <> length distances)
  /\ inverse_distance_weighting [] distances exponent = Some NaN.
Proof.
  split; [|reflexivity].
  split.
  - intros H. split.
    + intros ->. discriminate H.
    + intros Hlen.
      destruct (idw_total exponent values distances Hlen) as [x Hx].
      congruence.
  - intros [Hne Hlen]. apply idw_raises_on_mismatch; assumption.
Qed.

(** ** More on temporal trends *)

Lemma trends_loop_keys (row : row_dict) (vars : list string)
  (trends trends' : row_dict) (key : string) :
  trends_loop row trends vars = Some trends' ->
  is_Some (trends' !! key)
  <-> is_Some (trends !! key) \/ In key (trend_keys_of vars).
Proof.
  revert trends.
  induction vars as [|var vars IH]; intros trends H; simpl in H.
  - injection H as <-. unfold trend_keys_of. simpl. tauto.
  - destruct (trend_of_var row trends var) as [trends1|] eqn:E;
      [|discriminate].
    cbn [mbind option_bind] in H.
    rewrite (IH _ H).
    destruct (trend_of_var_inv _ _ _ _ E) as (act & rct & -> & _).
    rewrite !lookup_insert_is_Some.
    unfold trend_keys_of. cbn [map concat]. rewrite in_app_iff. simpl.
    destruct (decide (base_var_of var +:+ "_RC_trend" = key));
      destruct (decide (base_var_of var +:+ "_AC_trend" = key));
      tauto.
Qed.

(** X6. When it does not raise, [calculate_temporal_trends] returns a
    dict with exactly two entries per variable, [base_AC_trend] and
    [base_RC_trend], and nothing else. *)
Theorem temporal_trends_keys (row : row_dict) (target_vars : list string)
  (trends : row_dict) (key : string) :
  calculate_temporal_trends row target_vars = Some trends ->
  is_Some (trends !! key) <-> In key (trend_keys_of target_vars).
Proof.
  intros H. unfold calculate_temporal_trends in H.
  rewrite (trends_loop_keys _ _ _ _ key H), lookup_empty.
  split; [intros [[x Hx]|Hin]; [discriminate|exact Hin]|auto].
Qed.

(** The theorem at the row with the two absolute changes of [Area]. *)
Lemma temporal_trends_keys_witness :
  exists trends,
    calculate_temporal_trends ex_changes ["Area2000"] = Some trends
    /\ is_Some (trends !! "Area_AC_trend")
    /\ is_Some (trends !! "Area_RC_trend")
    /\ trends !! "Area2000_AC" = None.
Proof.
  destruct (calculate_temporal_trends ex_changes ["Area2000"])
    as [trends|] eqn:Hrun; [|vm_compute in Hrun; discriminate].
  exists trends. split; [reflexivity|].
  pose proof (fun key => temporal_trends_keys ex_changes ["Area2000"]
                           trends key Hrun) as Hkeys.
  split; [apply Hkeys; cbv; auto|].
  split; [apply Hkeys; cbv; auto|].
  destruct (trends !! "Area2000_AC") as [x|] eqn:E; [|reflexivity].
  assert (Hin : In "Area2000_AC" (trend_keys_of ["Area2000"]))
    by (apply Hkeys; rewrite E; eauto).
  cbv in Hin. destruct Hin as [Hin|[Hin|[]]]; discriminate.
Defined.

Lemma trend_of_var_raises (row trends : row_dict) (var : string) :
  trend_of_var row trends var = None <-> trend_lookup_raises row var.
Proof.
  unfold trend_of_var, trend_lookup_raises. cbv zeta.
  destruct (row !! (base_var_of var +:+ "2020_AC")) as [v2020|];
    cbn [mbind option_bind]; [|tauto].
  destruct (is_valid_value v2020) eqn:V.
  - destruct (row !! (base_var_of var +:+ "2000_AC")) as [v2000|];
      cbn [mbind option_bind].
    + split.
      * destruct (is_valid_value v2000); [destruct (fltb _ _)|];
          discriminate.
      * intros [H|(v & _ & _ & H)]; discriminate.
    + split; [|reflexivity]. intros _. right. eauto.
  - split; [discriminate|].
    intros [H|(v & [= <-] & Hv & _)]; [discriminate|congruence].
Qed.

(** X7. [calculate_temporal_trends] raises KeyError exactly when, for one
    of its variables, the row has no absolute change of 2020, or has a
    valid one and no absolute change of 2000.  A missing absolute change
    of 2000 passes unnoticed when the one of 2020 is not valid. *)
Theorem temporal_trends_raise (row : row_dict) (target_vars : list string) :
  calculate_temporal_trends row target_vars = None
  <-> Exists (trend_lookup_raises row) target_vars.
Proof.
  unfold calculate_temporal_trends. generalize (∅ : row_dict).
  induction target_vars as [|var vars IH]; intros trends; simpl.
  - split; [discriminate|]. intros H. inversion H.
  - destruct (trend_of_var row trends var) as [trends1|] eqn:E;
      cbn [mbind option_bind].
    + rewrite IH. split; [intros H; right; exact H|].
      intros H. inversion H as [? ? Hr|? ? Hr]; subst; [|exact Hr].
      apply (trend_of_var_raises row trends var) in Hr. congruence.
    + split; [|reflexivity]. intros _. left.
      apply (trend_of_var_raises row trends var). exact E.
Qed.

(** *** The size of the relative trend *)

Lemma symmetric_ratio_bounds (a b : Q) :
  ~ Qabs a + Qabs b == 0 ->
  -100 <= (b - a) / (Qabs a + Qabs b) * 100 <= 100.
Proof.
  intros Hne.
  pose proof (Qabs_nonneg a). pose proof (Qabs_nonneg b).
  pose proof (Qle_Qabs a). pose proof (Qle_Qabs b).
  pose proof (Qle_Qabs (- a)) as Ha. rewrite Qabs_opp in Ha.
  pose proof (Qle_Qabs (- b)) as Hb. rewrite Qabs_opp in Hb.
  set (d := Qabs a + Qabs b) in *.
  assert (Hd : 0 < d).
  { destruct (Qlt_le_dec 0 d) as [Hlt|Hle]; [exact Hlt|].
    exfalso. apply Hne. unfold d in *. lra. }
  assert (Hup : (b - a) / d <= 1)
    by (apply Qle_shift_div_r; [exact Hd|unfold d; lra]).
  assert (Hlo : -1 <= (b - a) / d)
    by (apply Qle_shift_div_l; [exact Hd|unfold d; lra]).
  lra.
Qed.

Lemma symmetric_ratio_saturates (a b : Q) :
  a <= 0 -> 0 <= b -> a < b ->
  (b - a) / (Qabs a + Qabs b) * 100 == 100.
Proof.
  intros Ha Hb Hab.
  rewrite (Qabs_neg a Ha), (Qabs_pos b Hb).
  field. lra.
Qed.

(** X8. The relative trend is NaN or a number between -100 and 100, and
    it is exactly 100 whenever the absolute change goes from a value that
    is not positive to one that is not negative (and -100 the other way
    round), as long as the sum of their magnitudes is within the range of
    [float64], so that nothing overflows: a change of sign reads as the
    full 100 percent. *)
Theorem relative_trend_is_bounded_and_saturates (row : row_dict)
  (target_vars : list string) (trends : row_dict) (var : string)
  (ac2000 ac2020 : num) :
  calculate_temporal_trends row target_vars = Some trends ->
  In var target_vars ->
  row !! (base_var_of var +:+ "2000_AC") = Some ac2000 ->
  row !! (base_var_of var +:+ "2020_AC") = Some ac2020 ->
  exists rc_trend,
    trends !! (base_var_of var +:+ "_RC_trend") = Some rc_trend
    /\ (rc_trend = NaN \/ exists q, rc_trend = Fin q /\ -100 <= q <= 100)
    /\ (forall x y,
          ac2000 = Fin x -> ac2020 = Fin y ->
          is_valid_value ac2000 = true -> is_valid_value ac2020 = true ->
          Qabs x + Qabs y <= float64_max ->
          (x <= 0 -> 0 <= y -> x < y -> rc_trend =f= Fin 100)
          /\ (y <= 0 -> 0 <= x -> y < x -> rc_trend =f= Fin (-100))).
Proof.
  intros Hrun Hin E2000 E2020.
  destruct (trends_loop_agrees row _ _ _ var Hrun Hin _ _ E2000 E2020)
    as [_ Hrc].
  eexists. split; [exact Hrc|]. unfold trend_values. split.
  - destruct (is_valid_value ac2020 && is_valid_value ac2000) eqn:V;
      [|left; reflexivity].
    apply andb_true_iff in V. destruct V as [V1 V0].
    apply is_valid_value_not_nan in V1, V0.
    destruct ac2000 as [| | |a], ac2020 as [| | |b]; try discriminate;
      simpl; auto.
    destruct (Qltb 0 (Qabs a + Qabs b)) eqn:D; simpl; [|auto].
    apply Qltb_lt in D.
    assert (E : Qeq_bool (Qabs a + Qabs b) 0 = false)
      by (apply Qeq_bool_false; lra).
    rewrite E. right. eexists. split; [reflexivity|].
    apply symmetric_ratio_bounds. lra.
  - intros x y -> -> V0 V1 _. rewrite V0, V1. cbn [andb snd fabs fadd fsub].
    split.
    + intros Hx Hy Hxy.
      assert (D : 0 < Qabs x + Qabs y)
        by (rewrite (Qabs_neg x Hx), (Qabs_pos y Hy); lra).
      assert (D' : Qltb 0 (Qabs x + Qabs y) = true) by (apply Qltb_lt; lra).
      assert (E : Qeq_bool (Qabs x + Qabs y) 0 = false)
        by (apply Qeq_bool_false; lra).
      simpl fltb. rewrite D'. simpl. rewrite E. simpl.
      apply symmetric_ratio_saturates; assumption.
    + intros Hy Hx Hxy.
      assert (D : 0 < Qabs x + Qabs y)
        by (rewrite (Qabs_pos x Hx), (Qabs_neg y Hy); lra).
      assert (D' : Qltb 0 (Qabs x + Qabs y) = true) by (apply Qltb_lt; lra).
      assert (E : Qeq_bool (Qabs x + Qabs y) 0 = false)
        by (apply Qeq_bool_false; lra).
      simpl fltb. rewrite D'. simpl. rewrite E. simpl.
      rewrite (Qabs_pos x Hx), (Qabs_neg y Hy). field. lra.
Qed.

(** The theorem at the absolute changes -1 (2000) and 3 (2020). *)
Lemma relative_trend_is_bounded_and_saturates_witness :
  exists trends rc,
    calculate_temporal_trends ex_sign_change ["Area"] = Some trends
    /\ trends !! "Area_RC_trend" = Some rc
    /\ rc =f= Fin 100.
Proof.
  destruct (calculate_temporal_trends ex_sign_change ["Area"])
    as [trends|] eqn:Hrun; [|vm_compute in Hrun; discriminate].
  destruct (relative_trend_is_bounded_and_saturates ex_sign_change ["Area"]
              trends "Area" (Fin (-1)) (Fin 3) Hrun)
    as (rc & Hrc & _ & Hsat);
    [left; reflexivity|reflexivity|reflexivity|].
  assert (Hfit : Qabs (-1) + Qabs 3 <= float64_max)
    by (apply Qle_bool_iff; vm_compute; reflexivity).
  destruct (Hsat (-1) 3 eq_refl eq_refl eq_refl eq_refl Hfit) as [Hup _].
  exists trends, rc. split; [reflexivity|]. split; [exact Hrc|].
  apply Hup; lra.
Defined.

(** *** Variable names *)

Lemma string_app_cons (c : Ascii.ascii) (b s : string) :
  String c b +:+ s = String c (b +:+ s).
Proof. reflexivity. Qed.

Lemma string_app_nil (s : string) : "" +:+ s = s.
Proof. reflexivity. Qed.

Lemma substring_whole (s : string) :
  String.substring 0 (String.length s) s = s.
Proof.
  induction s as [|c s IH]; simpl; [reflexivity|]. rewrite IH. reflexivity.
Qed.

Lemma substring_stem (b s : string) :
  String.substring 0 (String.length b) (b +:+ s) = b.
Proof.
  induction b as [|c b IH].
  - rewrite string_app_nil. destruct s; reflexivity.
  - rewrite string_app_cons. simpl. rewrite IH. reflexivity.
Qed.

Lemma substring_suffix (b s : string) :
  String.substring (String.length b) (String.length s) (b +:+ s) = s.
Proof.
  induction b as [|c b IH].
  - rewrite string_app_nil. apply substring_whole.
  - rewrite string_app_cons. simpl. exact IH.
Qed.

Lemma endswith_app (b s : string) : endswith (b +:+ s) s = true.
Proof.
  unfold endswith. cbv zeta. rewrite string_length_app.
  replace (String.length b + String.length s - String.length s)%nat
    with (String.length b) by lia.
  rewrite substring_suffix, String.eqb_refl, andb_true_r.
  apply Nat.leb_le. lia.
Qed.

Lemma drop_last4_app (b s : string) :
  String.length s = 4%nat -> drop_last4 (b +:+ s) = b.
Proof.
  intros H. unfold drop_last4. rewrite string_length_app, H.
  replace (String.length b + 4 - 4)%nat with (String.length b) by lia.
  apply substring_stem.
Qed.

(** X9. The year at the end of a variable name is dropped: [b2000] and
    [b2020] both stand for the base variable [b], so either name makes
    the loop read [b2000_AC] and [b2020_AC] and write the same trend
    entries. *)
Theorem year_suffix_is_dropped (b : string) (row trends : row_dict) :
  base_var_of (b +:+ "2000") = b
  /\ base_var_of (b +:+ "2020") = b
  /\ trend_of_var row trends (b +:+ "2000")
     = trend_of_var row trends (b +:+ "2020").
Proof.
  assert (H1 : base_var_of (b +:+ "2000") = b).
  { unfold base_var_of. rewrite endswith_app. cbn [orb].
    apply drop_last4_app. reflexivity. }
  assert (H2 : base_var_of (b +:+ "2020") = b).
  { unfold base_var_of. rewrite (endswith_app b "2020"), orb_true_r.
    apply drop_last4_app. reflexivity. }
  split; [exact H1|]. split; [exact H2|].
  unfold trend_of_var. rewrite H1, H2. reflexivity.
Qed.

(** ** More on the absolute and the relative change *)

Lemma fsub_swap (x y : num) : fsub y x =f= fneg (fsub x y).
Proof.
  destruct x, y; simpl; auto. lra.
Qed.

(** X10. The relative change is symmetric: exchanging the treatment value
    and the background estimate changes the sign of both the absolute and
    the relative change and nothing else. *)
Theorem impact_scores_are_antisymmetric (treatment bg_mean : num) :
  fst (impact_scores bg_mean treatment)
  =f= fneg (fst (impact_scores treatment bg_mean))
  /\ snd (impact_scores bg_mean treatment)
     =f= fneg (snd (impact_scores treatment bg_mean)).
Proof.
  unfold impact_scores.
  rewrite (andb_comm (is_valid_value bg_mean)).
  destruct (is_valid_value treatment && is_valid_value bg_mean) eqn:V;
    [|simpl; auto].
  apply andb_true_iff in V. destruct V as [Vt Vb].
  apply is_valid_value_not_nan in Vt, Vb.
  cbn [fst snd]. split; [apply fsub_swap|].
  destruct treatment as [| | |a], bg_mean as [| | |c]; try discriminate;
    try (simpl; exact I).
  cbn [fabs fadd fsub feqb fdiv].
  assert (E : Qeq_bool (Qabs a + Qabs c) 0 = Qeq_bool (Qabs c + Qabs a) 0)
    by (apply Qeq_bool_comp; lra).
  rewrite E.
  destruct (Qeq_bool (Qabs c + Qabs a) 0) eqn:E0; cbn [negb fneg feq];
    [exact I|].
  apply Qeq_bool_false in E0.
  cbn [fmul fneg feq].
  assert (Hd : Qabs a + Qabs c == Qabs c + Qabs a) by lra.
  rewrite Hd. field. exact E0.
Qed.

(** ** The relative change in the result row *)

Lemma impact_scores_saturate (x y : Q) :
  is_valid_value (Fin x) = true ->
  is_valid_value (Fin y) = true ->
  (y <= 0 -> 0 <= x -> y < x ->
   snd (impact_scores (Fin x) (Fin y)) =f= Fin 100)
  /\ (x <= 0 -> 0 <= y -> x < y ->
      snd (impact_scores (Fin x) (Fin y)) =f= Fin (-100)).
Proof.
  intros Vx Vy. unfold impact_scores. rewrite Vx, Vy.
  cbn [andb snd fabs fadd fsub feqb].
  split.
  - intros Hy Hx Hxy.
    assert (E : Qeq_bool (Qabs y + Qabs x) 0 = false).
    { apply Qeq_bool_false.
      rewrite (Qabs_neg y Hy), (Qabs_pos x Hx). lra. }
    rewrite E. cbn [negb fdiv]. rewrite E. cbn [fmul feq].
    apply symmetric_ratio_saturates; assumption.
  - intros Hx Hy Hxy.
    assert (E : Qeq_bool (Qabs y + Qabs x) 0 = false).
    { apply Qeq_bool_false.
      rewrite (Qabs_pos y Hy), (Qabs_neg x Hx). lra. }
    rewrite E. cbn [negb fdiv]. rewrite E. cbn [fmul feq].
    rewrite (Qabs_pos y Hy), (Qabs_neg x Hx). field. lra.
Qed.

(** X11. In a result row the relative change of a metric is NaN or lies
    between -100 and 100, and it is exactly 100 (or -100) as soon as the
    treatment value and the background estimate are valid and lie on
    opposite sides of zero, one of them possibly zero, the sum of their
    magnitudes being within the range of [float64] (no overflow). *)
Theorem relative_change_is_within_100 (np_sqrt : num -> num)
  (argsort : list num -> list nat) (row : PointRec)
  (table2 : list PointRec) (r : row_dict) (col : string) :
  process_point np_sqrt argsort row table2 = Some (Result r) ->
  In col target_columns ->
  exists treatment background rc,
    r !! (col +:+ "_road") = Some treatment
    /\ r !! (col +:+ "_ref") = Some background
    /\ r !! (col +:+ "_RC") = Some rc
    /\ (rc = NaN \/ exists q, rc = Fin q /\ -100 <= q <= 100)
    /\ (forall x y,
          treatment = Fin x -> background = Fin y ->
          is_valid_value treatment = true ->
          is_valid_value background = true ->
          Qabs x + Qabs y <= float64_max ->
          (y <= 0 -> 0 <= x -> y < x -> rc =f= Fin 100)
          /\ (x <= 0 -> 0 <= y -> x < y -> rc =f= Fin (-100))).
Proof.
  intros Hpoint Hcol.
  destruct (process_point_inv _ _ _ _ _ Hpoint) as (sel & _ & Hrow).
  destruct (result_row_columns _ _ _ _ Hrow Hcol)
    as (t & b & _ & _ & Hroad & Href & _ & Hrc).
  exists t, b, (snd (impact_scores t b)).
  split; [exact Hroad|]. split; [exact Href|]. split; [exact Hrc|].
  split; [apply impact_scores_bound|].
  intros x y -> -> Vx Vy _. apply impact_scores_saturate; assumption.
Qed.

(** The theorem at the example tables, where the treatment value of
    [Area2000] is 10 and the background estimate is 0. *)
Lemma relative_change_is_within_100_witness :
  exists r rc,
    process_point sqrt_floor stable_argsort ex_row ex_table2
    = Some (Result r)
    /\ r !! "Area2000_RC" = Some rc
    /\ (rc = NaN \/ exists q, rc = Fin q /\ -100 <= q <= 100).
Proof.
  destruct (process_point sqrt_floor stable_argsort ex_row ex_table2)
    as [[s|r]|] eqn:Hpoint; try (vm_compute in Hpoint; discriminate).
  destruct (relative_change_is_within_100 sqrt_floor stable_argsort
              ex_row ex_table2 r "Area2000" Hpoint)
    as (t & b & rc & _ & _ & Hrc & Hbound & _).
  - left. reflexivity.
  - exists r, rc. split; [reflexivity|]. split; [exact Hrc|exact Hbound].
Defined.

(** ** The candidates a treatment point sees *)

(** X12. Only the candidates within the threshold of a treatment point
    have any influence on what the point produces: two candidate tables
    with the same rows within the threshold, in the same order, give the
    same result row or skip record. *)
Theorem far_candidates_have_no_influence (np_sqrt : num -> num)
  (argsort : list num -> list nat) (row : PointRec)
  (table2 table2' : list PointRec) :
  kept_candidates np_sqrt row table2 = kept_candidates np_sqrt row table2' ->
  process_point np_sqrt argsort row table2
  = process_point np_sqrt argsort row table2'.
Proof.
  intros Hkept. unfold process_point.
  rewrite !select_references_unfold, Hkept. reflexivity.
Qed.

(** The theorem at the example candidates with and without the one at
    60000 of the treatment point. *)
Lemma far_candidates_have_no_influence_witness :
  process_point sqrt_floor stable_argsort ex_row ex_table2
  = process_point sqrt_floor stable_argsort ex_row (take 4 ex_table2).
Proof.
  apply far_candidates_have_no_influence. vm_compute. reflexivity.
Defined.

(** X13. Treatment points and candidates are disjoint: no row of the
    merged table passes both filters, so a treatment point is never its
    own reference. *)
Theorem treatment_points_are_not_candidates (merged_df : list PointRec) :
  (forall r, is_treatment r = true -> is_candidate r = false)
  /\ (forall r, In r (List.filter is_treatment merged_df) ->
        ~ In r (List.filter is_candidate merged_df)).
Proof.
  assert (H : forall r, is_treatment r = true -> is_candidate r = false).
  { intros r. unfold is_treatment, is_candidate.
    intros [_ Hb]%andb_true_iff.
    destruct (fleb (Buffer_type r) (Fin 1)) eqn:Hle; [|reflexivity].
    exfalso. destruct (Buffer_type r) as [| | |q]; try discriminate.
    simpl in Hb, Hle. apply Qltb_lt in Hb.
    apply Qle_bool_iff in Hle. lra. }
  split; [exact H|].
  intros r [_ Ht]%filter_In [_ Hc]%filter_In.
  rewrite (H r Ht) in Hc. discriminate.
Qed.

(** The theorem at the road-side point of the examples. *)
Lemma treatment_points_are_not_candidates_witness :
  is_treatment ex_row = true /\ is_candidate ex_row = false.
Proof.
  destruct (treatment_points_are_not_candidates ex_merged) as [H _].
  split; [reflexivity|]. apply H. reflexivity.
Defined.

(** ** The reference subset *)

Lemma iloc_as_map {A : Type} (d : A) (a : list A) (indices : list nat)
  (picked : list A) :
  iloc a indices = Some picked ->
  picked = map (fun i => nth i a d) indices.
Proof.
  unfold iloc. intros H%mapM_Some_1.
  induction H as [|i x indices picked Hx _ IH]; [reflexivity|].
  simpl. rewrite IH. f_equal.
  symmetry. apply nth_lookup_Some. exact Hx.
Qed.

Lemma map_nth_seq_from {A : Type} (d : A) (pre a : list A) :
  map (fun i => nth i (pre ++ a) d) (seq (length pre) (length a)) = a.
Proof.
  revert pre. induction a as [|x a IH]; intros pre; [reflexivity|].
  cbn [length seq map]. rewrite nth_middle. f_equal.
  specialize (IH (pre ++ [x])).
  rewrite <- app_assoc, length_app in IH. cbn [length app] in IH.
  rewrite Nat.add_1_r in IH. exact IH.
Qed.

(** The rows picked at the first [k] of a permutation of all positions
    are rows of the table, each position used once. *)
Lemma iloc_sub_permutation {A : Type} (a : list A) (indices : list nat)
  (k : nat) (top : list A) :
  Permutation indices (seq 0 (length a)) ->
  iloc a (take k indices) = Some top ->
  exists rest, Permutation (top ++ rest) a.
Proof.
  intros Hperm Htop.
  destruct a as [|d a'].
  - apply Permutation_sym, Permutation_nil in Hperm. subst indices.
    rewrite take_nil in Htop. apply mapM_Some_1 in Htop.
    apply Forall2_nil_inv_l in Htop. subst top.
    exists []. reflexivity.
  - remember (d :: a') as a eqn:Ea.
    apply (iloc_as_map d) in Htop.
    exists (map (fun i => nth i a d) (drop k indices)).
    rewrite Htop, <- map_app, take_drop.
    eapply perm_trans; [apply Permutation_map; exact Hperm|].
    pose proof (map_nth_seq_from d [] a) as Hall.
    cbn [app length] in Hall. rewrite Hall. reflexivity.
Qed.

(** X14. The references of a treatment point are candidates within the
    threshold, each candidate row used at most once, and the distances the
    weights are computed from are the distances of these very rows. *)
Theorem references_are_distinct_kept_candidates (np_sqrt : num -> num)
  (argsort : list num -> list nat) :
  argsort_contract argsort ->
  forall (row : PointRec) (table2 : list PointRec) (sel : Selection),
  select_references np_sqrt argsort row table2 = Some (Some sel) ->
  (exists rest,
     Permutation (top_records sel ++ rest)
       (kept_candidates np_sqrt row table2))
  /\ top_distances sel = map (distance_to np_sqrt row) (top_records sel)
  /\ Forall (fun c =>
               In c table2
               /\ fltb (distance_to np_sqrt row c) THRESHOLD_DISTANCE = true)
       (top_records sel).
Proof.
  intros Hsort row table2 sel Hsel.
  pose proof (select_references_inv _ _ _ _ _ Hsel) as Hinv.
  cbv zeta in Hinv.
  destruct Hinv as (_ & _ & _ & _ & Hidx & Htop & Hdist).
  assert (Hsub : exists rest,
             Permutation (top_records sel ++ rest)
               (kept_candidates np_sqrt row table2)).
  { apply (iloc_sub_permutation _ (sorted_indices sel)
             (Z.to_nat (n_top_of
                          (length (kept_candidates np_sqrt row table2)))));
      [|exact Htop].
    rewrite Hidx.
    destruct (Hsort (map (index_difference row)
                       (kept_candidates np_sqrt row table2)))
      as [Hperm _].
    rewrite length_map in Hperm. exact Hperm. }
  split; [exact Hsub|]. split; [exact Hdist|].
  destruct Hsub as [rest Hperm].
  apply List.Forall_forall. intros c Hc.
  apply (kept_candidates_in np_sqrt row c table2).
  apply (Permutation_in _ Hperm). apply in_or_app. left. exact Hc.
Qed.

(** The theorem at the example tables. *)
Lemma references_are_distinct_kept_candidates_witness :
  exists sel rest,
    select_references sqrt_floor stable_argsort ex_row ex_table2
    = Some (Some sel)
    /\ Permutation (top_records sel ++ rest)
         (kept_candidates sqrt_floor ex_row ex_table2).
Proof.
  destruct (select_references sqrt_floor stable_argsort ex_row ex_table2)
    as [[sel|]|] eqn:Hsel; try (vm_compute in Hsel; discriminate).
  destruct (references_are_distinct_kept_candidates sqrt_floor
              stable_argsort stable_argsort_contract ex_row ex_table2 sel
              Hsel)
    as ([rest Hperm] & _).
  exists sel, rest. split; [reflexivity|exact Hperm].
Defined.

(** ** The columns of the result row *)

Lemma score_columns_keys (row : PointRec) (sel : Selection)
  (cols : list string) (rr rr' : row_dict) (key : string) :
  score_columns row sel rr cols = Some rr' ->
  is_Some (rr' !! key)
  <-> is_Some (rr !! key) \/ In key (concat (map column_keys cols)).
Proof.
  revert rr.
  induction cols as [|col cols IH]; intros rr H; simpl in H.
  - injection H as <-. simpl. tauto.
  - destruct (score_column row sel rr col) as [rr1|] eqn:E;
      [|discriminate].
    cbn [mbind option_bind] in H.
    rewrite (IH _ H).
    destruct (score_column_inv _ _ _ _ _ E) as (t & b & _ & _ & ->).
    rewrite !lookup_insert_is_Some'.
    cbn [map concat]. rewrite in_app_iff. unfold column_keys at 1.
    simpl In. tauto.
Qed.

Lemma initial_result_row_keys (row : PointRec) (sel : Selection)
  (cindex_diff nearest : num) (key : string) :
  is_Some (initial_result_row row sel cindex_diff nearest !! key)
  <-> In key ["pointID"; "X"; "Y"; "Buffer_type"; "CEI_Diff";
              "Nearest_Ref_Distance"; "Ref_Points_Used"].
Proof.
  unfold initial_result_row.
  rewrite !lookup_insert_is_Some', lookup_empty, is_Some_alt.
  simpl In. tauto.
Qed.

(** One list of names is within another, by computation. *)
Lemma names_included (l1 l2 : list string) :
  forallb (fun x => existsb (String.eqb x) l2) l1 = true ->
  forall x, In x l1 -> In x l2.
Proof.
  intros H x Hx.
  apply (proj1 (forallb_forall _ _) H) in Hx.
  apply existsb_exists in Hx. destruct Hx as (y & Hy & E).
  apply String.eqb_eq in E. subst y. exact Hy.
Qed.

Lemma column_order_names (key : string) :
  In key column_order
  <-> In key (trend_keys_of trend_vars)
      \/ In key ["pointID"; "X"; "Y"; "Buffer_type"; "CEI_Diff";
                 "Nearest_Ref_Distance"; "Ref_Points_Used"]
      \/ In key (concat (map column_keys target_columns)).
Proof.
  rewrite <- !in_app_iff. split; apply names_included; vm_compute;
    reflexivity.
Qed.

Lemma column_order_nodup : NoDup column_order.
Proof. apply (bool_decide_unpack _). vm_compute. reflexivity. Qed.

(** X15. A result row has exactly the columns of [column_order], and
    [column_order] names no column twice: the selection
    [result_df[column_order]] of line 228 cannot raise KeyError and drops
    nothing. *)
Theorem result_row_has_exactly_the_output_columns (np_sqrt : num -> num)
  (argsort : list num -> list nat) (row : PointRec)
  (table2 : list PointRec) (r : row_dict) :
  process_point np_sqrt argsort row table2 = Some (Result r) ->
  NoDup column_order
  /\ forall key, is_Some (r !! key) <-> In key column_order.
Proof.
  intros Hpoint. split; [exact column_order_nodup|]. intros key.
  destruct (process_point_inv _ _ _ _ _ Hpoint) as (sel & _ & Hrow).
  destruct (build_result_row_stages _ _ _ Hrow)
    as (bg & nearest & rr & trends & _ & Hsc & Htr & ->).
  rewrite lookup_union_is_Some.
  unfold calculate_temporal_trends in Htr.
  rewrite (trends_loop_keys _ _ _ _ key Htr), lookup_empty.
  rewrite (score_columns_keys _ _ _ _ _ key Hsc).
  rewrite initial_result_row_keys, column_order_names.
  rewrite is_Some_alt. tauto.
Qed.

(** The theorem at the example tables: [CEI_Diff] is a column of the
    result row, [CEI] is not. *)
Lemma result_row_has_exactly_the_output_columns_witness :
  exists r,
    process_point sqrt_floor stable_argsort ex_row ex_table2
    = Some (Result r)
    /\ is_Some (r !! "CEI_Diff")
    /\ r !! "CEI" = None.
Proof.
  destruct (process_point sqrt_floor stable_argsort ex_row ex_table2)
    as [[s|r]|] eqn:Hpoint; try (vm_compute in Hpoint; discriminate).
  destruct (result_row_has_exactly_the_output_columns sqrt_floor
              stable_argsort ex_row ex_table2 r Hpoint) as [_ Hkeys].
  exists r. split; [reflexivity|]. split.
  - apply Hkeys. apply (names_included ["CEI_Diff"]); [reflexivity|].
    left. reflexivity.
  - destruct (r !! "CEI") as [x|] eqn:E; [|reflexivity].
    assert (Hin : In "CEI" column_order) by (apply Hkeys; rewrite E; eauto).
    apply list_elem_of_In in Hin. exfalso. revert Hin.
    apply (bool_decide_unpack _). vm_compute. reflexivity.
Defined.

(** ** The trends in the result row *)

Lemma string_app_assoc (a b c : string) :
  (a +:+ b) +:+ c = a +:+ (b +:+ c).
Proof.
  induction a as [|x a IH]; [reflexivity|].
  rewrite !string_app_cons, IH. reflexivity.
Qed.

(** X16. The trend columns of a result row are computed from the absolute
    changes of that same row: for each of Area, H, PD and NPP the row holds
    the absolute changes of 2000 and 2020 and the two trends derived from
    them; no lookup of [calculate_temporal_trends] fails there, and the
    update with the trends overwrites none of the other columns. *)
Theorem trends_in_the_result_row (np_sqrt : num -> num)
  (argsort : list num -> list nat) (row : PointRec)
  (table2 : list PointRec) (r : row_dict) (base : string) :
  process_point np_sqrt argsort row table2 = Some (Result r) ->
  In base trend_vars ->
  exists ac2000 ac2020,
    r !! (base +:+ "2000_AC") = Some ac2000
    /\ r !! (base +:+ "2020_AC") = Some ac2020
    /\ r !! (base +:+ "_AC_trend") = Some (fst (trend_values ac2000 ac2020))
    /\ r !! (base +:+ "_RC_trend") = Some (snd (trend_values ac2000 ac2020)).
Proof.
  intros Hpoint Hbase.
  destruct (process_point_inv _ _ _ _ _ Hpoint) as (sel & _ & Hrow).
  destruct (build_result_row_stages _ _ _ Hrow)
    as (bg & nearest & rr & trends & _ & Hsc & Htr & Hr).
  assert (Hcols : forall col, In col target_columns ->
            exists ac, rr !! (col +:+ "_AC") = Some ac
                       /\ r !! (col +:+ "_AC") = Some ac).
  { intros col Hcol.
    destruct (score_columns_entries _ _ _ _ _ col Hsc target_keys_nodup)
      as (t & b & _ & _ & _ & _ & Hac & _).
    { apply list_elem_of_In. exact Hcol. }
    destruct (result_row_columns _ _ _ _ Hrow Hcol)
      as (t' & b' & _ & _ & _ & _ & Hac' & _).
    exists (fst (impact_scores t b)). split; [exact Hac|].
    rewrite Hac'. rewrite Hr in Hac'.
    rewrite lookup_union_r in Hac'; [congruence|].
    apply (trends_only_trend_keys _ _ _ _ Htr).
    cbv in Hcol.
    repeat (destruct Hcol as [Hcol|Hcol]; [subst col; not_a_trend_key|]).
    destruct Hcol. }
  assert (Hall : forall var, In var trend_vars ->
            base_var_of var = var
            /\ In (var +:+ "2000") target_columns
            /\ In (var +:+ "2020") target_columns).
  { intros var Hvar. cbv in Hvar.
    repeat (destruct Hvar as [Hvar|Hvar];
            [subst var; split; [reflexivity|split; cbv; tauto]|]).
    destruct Hvar. }
  destruct (Hall base Hbase) as (Hb & H2000 & H2020).
  destruct (Hcols _ H2000) as (ac2000 & Hrr2000 & Hr2000).
  destruct (Hcols _ H2020) as (ac2020 & Hrr2020 & Hr2020).
  assert (E : forall s, (base +:+ s) +:+ "_AC" = base +:+ (s +:+ "_AC")).
  { intros s. apply string_app_assoc. }
  rewrite (E "2000") in Hrr2000, Hr2000.
  rewrite (E "2020") in Hrr2020, Hr2020.
  change ("2000" +:+ "_AC") with "2000_AC" in Hrr2000, Hr2000.
  change ("2020" +:+ "_AC") with "2020_AC" in Hrr2020, Hr2020.
  exists ac2000, ac2020.
  split; [exact Hr2000|]. split; [exact Hr2020|].
  unfold calculate_temporal_trends in Htr.
  pose proof (trends_loop_agrees rr _ _ _ base Htr Hbase) as Hagree.
  rewrite Hb in Hagree.
  destruct (Hagree _ _ Hrr2000 Hrr2020) as [Hac Hrc].
  rewrite Hr. split; apply lookup_union_Some_l; assumption.
Qed.

(** The theorem at the example tables, for [Area]. *)
Lemma trends_in_the_result_row_witness :
  exists r ac2000 ac2020,
    process_point sqrt_floor stable_argsort ex_row ex_table2
    = Some (Result r)
    /\ r !! "Area2000_AC" = Some ac2000
    /\ r !! "Area2020_AC" = Some ac2020
    /\ r !! "Area_AC_trend" = Some (fst (trend_values ac2000 ac2020)).
Proof.
  destruct (process_point sqrt_floor stable_argsort ex_row ex_table2)
    as [[s|r]|] eqn:Hpoint; try (vm_compute in Hpoint; discriminate).
  destruct (trends_in_the_result_row sqrt_floor stable_argsort ex_row
              ex_table2 r "Area" Hpoint)
    as (ac2000 & ac2020 & H2000 & H2020 & Hac & _).
  - left. reflexivity.
  - exists r, ac2000, ac2020. split; [reflexivity|].
    split; [exact H2000|]. split; [exact H2020|exact Hac].
Defined.

(** ** The loop and the batch *)

Lemma filter_split_length {A : Type} (f : A -> bool) (l : list A) :
  (length (List.filter f l) + length (List.filter (fun x => negb (f x)) l)
   = length l)%nat.
Proof.
  induction l as [|x l IH]; [reflexivity|].
  simpl. destruct (f x); simpl; lia.
Qed.

(** X18. With a sorting routine that meets the contract of [np.argsort]
    the loop raises nothing: the batch function returns False only when
    one of the two subtables is empty, and otherwise every treatment point
    leaves exactly one result row or one skip record. *)
Theorem batch_fails_only_on_empty_tables (np_sqrt : num -> num)
  (argsort : list num -> list nat) (merged_df : list PointRec) :
  argsort_contract argsort ->
  (process_forest_metrics np_sqrt argsort merged_df = Failed
   <-> List.filter is_treatment merged_df = []
       \/ List.filter is_candidate merged_df = [])
  /\ (forall result_rows skipped_rows,
        process_forest_metrics np_sqrt argsort merged_df
        = Completed result_rows skipped_rows ->
        (length result_rows + length skipped_rows
         = length (List.filter is_treatment merged_df))%nat).
Proof.
  intros Hsort. unfold process_forest_metrics. cbv zeta.
  destruct (process_rows_partition np_sqrt argsort Hsort
              (List.filter is_candidate merged_df)
              (List.filter is_treatment merged_df) [] [])
    as (results & Hrun & Hall).
  rewrite Hrun.
  pose proof (filter_split_length
                (too_few np_sqrt (List.filter is_candidate merged_df))
                (List.filter is_treatment merged_df)) as Hlen.
  apply Forall2_length in Hall.
  destruct (List.filter is_treatment merged_df) as [|t1 T1] eqn:E1.
  - split; [tauto|]. intros ? ? [=].
  - destruct (List.filter is_candidate merged_df) as [|c1 C1] eqn:E2.
    + split; [tauto|]. intros ? ? [=].
    + split.
      * split; [discriminate|]. intros [H|H]; discriminate.
      * intros rs ss [= <- <-].
        cbn [app]. rewrite length_map.
        simpl in Hlen, Hall |- *.
        destruct (too_few np_sqrt (c1 :: C1) t1); simpl in Hlen, Hall |- *;
          lia.
Qed.

(** The theorem at the example table and the stable sort. *)
Lemma batch_fails_only_on_empty_tables_witness :
  process_forest_metrics sqrt_floor stable_argsort ex_merged <> Failed.
Proof.
  destruct (batch_fails_only_on_empty_tables sqrt_floor stable_argsort
              ex_merged stable_argsort_contract) as [Hfail _].
  intros H. apply Hfail in H. vm_compute in H.
  destruct H as [H|H]; discriminate.
Defined.

(** ** The composite index *)

Section CompositeIndex.

Import CalculatingCEI.

Lemma existsb_false {A : Type} (f : A -> bool) (l : list A) :
  existsb f l = false <-> forall x, In x l -> f x = false.
Proof.
  split.
  - intros H x Hx. destruct (f x) eqn:E; [|reflexivity].
    rewrite <- H. symmetry. apply existsb_exists. exists x. auto.
  - intros H. destruct (existsb f l) eqn:E; [|reflexivity].
    apply existsb_exists in E. destruct E as (x & Hx & E).
    rewrite (H x Hx) in E. discriminate.
Qed.

Lemma in_zip_snd {A B : Type} (l : list A) (k : list B) (e : A * B) :
  In e (zip l k) -> In (snd e) k.
Proof.
  revert k. induction l as [|x l IH]; intros [|y k]; simpl; try tauto.
  intros [<-|H]; [left; reflexivity|right; apply IH; exact H].
Qed.

Lemma map_fst_zip {A B : Type} (l : list A) (k : list B) :
  length l = length k -> map fst (zip l k) = l.
Proof.
  revert k. induction l as [|x l IH]; intros [|y k] H; simpl in H |- *;
    try discriminate; [reflexivity|].
  f_equal. apply IH. lia.
Qed.

(** *** The largest entry *)

Lemma foldl_np_maximum (acc : num) (a : list num) :
  isnan acc = false ->
  Forall (fun d => isnan d = false) a ->
  let m := foldl np_maximum acc a in
  In m (acc :: a) /\ isnan m = false
  /\ fleb acc m = true /\ Forall (fun d => fleb d m = true) a.
Proof.
  intros Hacc Ha. revert acc Hacc.
  induction Ha as [|d a Hd _ IH]; intros acc Hacc; simpl.
  - repeat split; auto using fleb_refl.
  - assert (Hmax : (np_maximum acc d = acc \/ np_maximum acc d = d)
                   /\ isnan (np_maximum acc d) = false
                   /\ fleb acc (np_maximum acc d) = true
                   /\ fleb d (np_maximum acc d) = true).
    { unfold np_maximum. rewrite Hacc, orb_false_r.
      destruct (fltb d acc) eqn:E; repeat split;
        auto using fleb_refl, fltb_fleb, fltb_false_fleb. }
    destruct Hmax as (Hwhich & Hnan & Hle1 & Hle2).
    destruct (IH (np_maximum acc d) Hnan) as (Hin & Hm & Hle & Hall).
    repeat split.
    + destruct Hin as [Hin|Hin]; [|auto].
      rewrite <- Hin. destruct Hwhich as [->| ->]; auto.
    + exact Hm.
    + exact (fleb_trans _ _ _ Hle1 Hle).
    + constructor; [exact (fleb_trans _ _ _ Hle2 Hle)|exact Hall].
Qed.

Lemma np_max_spec (a : list num) (m : num) :
  Forall (fun d => isnan d = false) a ->
  np_max a = Some m ->
  In m a /\ Forall (fun d => fleb d m = true) a.
Proof.
  destruct a as [|x a]; simpl; [discriminate|].
  intros Ha [= <-].
  inversion Ha as [|? ? Hx Ha']; subst.
  destruct (foldl_np_maximum x a Hx Ha') as (Hin & _ & Hle & Hall).
  split; [exact Hin|]. constructor; assumption.
Qed.

(** *** The range of the normalised index *)

Lemma np_clip_unit (x : num) :
  np_clip (Fin 0) (Fin 1) x = NaN
  \/ exists q, np_clip (Fin 0) (Fin 1) x = Fin q /\ 0 <= q <= 1.
Proof.
  destruct x as [| | |q].
  - left. reflexivity.
  - right. exists 1. split; [reflexivity|lra].
  - right. exists 0. split; [reflexivity|lra].
  - right. unfold np_clip, np_maximum. cbn [fltb isnan].
    rewrite orb_false_r.
    destruct (Qltb 0 q) eqn:E0.
    + unfold np_minimum. cbn [fltb isnan]. rewrite orb_false_r.
      apply Qltb_lt in E0.
      destruct (Qltb 1 q) eqn:E1.
      * exists 1. split; [reflexivity|lra].
      * apply Qltb_ge in E1. exists q. split; [reflexivity|lra].
    + exists 0. split; [reflexivity|lra].
Qed.

Lemma unclipped_unit (x : num) :
  fltb x (Fin 0) = false -> fltb (Fin 1) x = false ->
  x = NaN \/ exists q, x = Fin q /\ 0 <= q <= 1.
Proof.
  destruct x as [| | |q]; cbn [fltb]; intros H0 H1; try discriminate.
  - left. reflexivity.
  - right. exists q. split; [reflexivity|].
    apply Qltb_ge in H0, H1. lra.
Qed.

Lemma normalize_cindex_unit (cindex l : list num) :
  normalize_cindex cindex = Some l ->
  Forall (fun c => c = NaN \/ exists q, c = Fin q /\ 0 <= q <= 1) l.
Proof.
  unfold normalize_cindex.
  destruct (np_min cindex) as [lo|]; [|discriminate].
  destruct (np_max cindex) as [hi|]; [|discriminate].
  cbn [mbind option_bind].
  set (scaled := if negb (feqb hi lo) then _ else _).
  destruct (existsb (fun c => fltb c (Fin 0)) scaled
            || existsb (fun c => fltb (Fin 1) c) scaled) eqn:E;
    intros [= <-]; apply List.Forall_forall; intros c Hc.
  - apply in_map_iff in Hc. destruct Hc as (x & <- & _).
    apply np_clip_unit.
  - apply orb_false_iff in E. destruct E as [E0 E1].
    apply unclipped_unit.
    + exact (proj1 (existsb_false _ _) E0 c Hc).
    + exact (proj1 (existsb_false _ _) E1 c Hc).
Qed.

Lemma process_data_inv (composite_index : list (list num) -> option (list num))
  (df : list (list num)) (result : list (num * num)) :
  process_data composite_index df = Writes result ->
  let clean := List.filter (fun r => negb (has_invalid (factors r))) df in
  exists cindex cindex_normalized,
    composite_index (map factors clean) = Some cindex
    /\ normalize_cindex cindex = Some cindex_normalized
    /\ length cindex_normalized = length clean
    /\ result = zip (map (fun r => nth 0 r NaN) clean) cindex_normalized.
Proof.
  unfold process_data. cbv zeta.
  destruct (df_empty df || (shape1 df <? 14)%nat); [discriminate|].
  rewrite (map_map factors (fun x => negb (has_invalid x)) df).
  destruct (negb (existsb id _)); [discriminate|].
  rewrite (mask_select_map (fun r => negb (has_invalid (factors r)))
             factors df).
  rewrite (mask_select_map (fun r => negb (has_invalid (factors r)))
             (fun r => nth 0 r NaN) df).
  cbn [mbind option_bind].
  destruct (composite_index _) as [cindex|]; [|discriminate].
  cbn [mbind option_bind].
  destruct (normalize_cindex cindex) as [normalized|] eqn:En;
    [|discriminate].
  cbn [mbind option_bind].
  destruct (_ =? _)%nat eqn:El; [|discriminate].
  intros [= <-]. apply Nat.eqb_eq in El. rewrite length_map in El.
  exists cindex, normalized. auto.
Qed.

(** X19. Every value of the CEI column that [process_data] writes is NaN
    or a number between 0 and 1, whatever the index computation returns. *)
Theorem cei_is_nan_or_between_0_and_1
  (composite_index : list (list num) -> option (list num))
  (df : list (list num)) (result : list (num * num)) :
  process_data composite_index df = Writes result ->
  Forall (fun e => snd e = NaN \/ exists q, snd e = Fin q /\ 0 <= q <= 1)
    result.
Proof.
  intros H. apply process_data_inv in H. cbv zeta in H.
  destruct H as (cindex & normalized & _ & Hn & Hlen & ->).
  pose proof (normalize_cindex_unit _ _ Hn) as Hunit.
  apply List.Forall_forall. intros e He.
  apply (proj1 (List.Forall_forall _ _) Hunit).
  exact (in_zip_snd _ _ e He).
Qed.

(** The theorem at the example table. *)
Lemma cei_is_nan_or_between_0_and_1_witness :
  exists result,
    process_data ex_composite_index ex_cei_df = Writes result
    /\ Forall (fun e => snd e = NaN
                        \/ exists q, snd e = Fin q /\ 0 <= q <= 1) result.
Proof.
  destruct (process_data ex_composite_index ex_cei_df) as [|result] eqn:H;
    [vm_compute in H; discriminate|].
  exists result. split; [reflexivity|].
  exact (cei_is_nan_or_between_0_and_1 ex_composite_index ex_cei_df
           result H).
Defined.

Lemma has_invalid_spec (x : list num) :
  has_invalid x = true
  <-> exists v, In v x /\ (v =f= Fin (-9999) \/ v =f= Fin 65535).
Proof.
  unfold has_invalid. rewrite existsb_exists.
  assert (E : forall v, py_in v INVALID_VALUES = true
                        <-> v =f= Fin (-9999) \/ v =f= Fin 65535).
  { intros v. unfold py_in, INVALID_VALUES. cbn [existsb].
    rewrite orb_false_r, orb_true_iff.
    destruct v as [| | |q]; cbn [feqb feq]; rewrite ?Qeq_bool_iff;
      intuition discriminate. }
  split; intros (v & Hv & H); exists v; (split; [exact Hv|]);
    apply E; exact H.
Qed.

(** X20. The table [process_data] writes has one row for each row of the
    input that has neither -9999 nor 65535 among its twelve factors
    (columns 2 to 13), in the order of the input and under its
    identifier; rows with a sentinel are left out. *)
Theorem cei_keeps_the_rows_without_sentinels
  (composite_index : list (list num) -> option (list num))
  (df : list (list num)) (result : list (num * num)) :
  rectangular df ->
  process_data composite_index df = Writes result ->
  map fst result
  = map (fun r => nth 0 r NaN)
      (List.filter (fun r => negb (has_invalid (factors r))) df)
  /\ (forall r,
        has_invalid (factors r) = true
        <-> exists v, In v (factors r)
                      /\ (v =f= Fin (-9999) \/ v =f= Fin 65535)).
Proof.
  intros _ H. apply process_data_inv in H. cbv zeta in H.
  destruct H as (cindex & normalized & _ & _ & Hlen & ->).
  split; [|intros r; apply has_invalid_spec].
  apply map_fst_zip. rewrite length_map. lia.
Qed.

(** The theorem at the example table, whose third row has a sentinel. *)
Lemma cei_keeps_the_rows_without_sentinels_witness :
  exists result,
    process_data ex_composite_index ex_cei_df = Writes result
    /\ map fst result = [Fin 1; Fin 2; Fin 4].
Proof.
  destruct (process_data ex_composite_index ex_cei_df) as [|result] eqn:H;
    [vm_compute in H; discriminate|].
  exists result. split; [reflexivity|].
  destruct (cei_keeps_the_rows_without_sentinels ex_composite_index
              ex_cei_df result) as [Hids _].
  - repeat constructor.
  - exact H.
  - rewrite Hids. reflexivity.
Defined.

Lemma factors_take_13 (r : list num) : factors (take 13 r) = factors r.
Proof.
  destruct r as [|x r]; [reflexivity|].
  unfold factors. cbn [take drop]. apply take_take.
Qed.

Lemma nth_0_take_13 (r : list num) : nth 0 (take 13 r) NaN = nth 0 r NaN.
Proof. destruct r; reflexivity. Qed.

(** X21. [process_data] asks for at least 14 columns and reads 13 of
    them: two tables of the same width that agree on their first 13
    columns give the same outcome. *)
Theorem cei_ignores_the_columns_after_the_13th
  (composite_index : list (list num) -> option (list num))
  (df df' : list (list num)) :
  shape1 df = shape1 df' ->
  map (take 13) df = map (take 13) df' ->
  process_data composite_index df = process_data composite_index df'.
Proof.
  intros Hshape Hcols.
  assert (Hlen : length df = length df').
  { rewrite <- (length_map (take 13) df), Hcols. apply length_map. }
  assert (Hid : forall d : list (list num),
            map (fun r => nth 0 r NaN) d
            = map (fun r => nth 0 r NaN) (map (take 13) d)).
  { intros d. rewrite map_map. apply map_ext. intros r.
    symmetry. apply nth_0_take_13. }
  assert (HX : forall d : list (list num),
            map factors d = map factors (map (take 13) d)).
  { intros d. rewrite map_map. apply map_ext. intros r.
    symmetry. apply factors_take_13. }
  unfold process_data, df_empty.
  rewrite (Hid df), (Hid df'), (HX df), (HX df'), Hcols, Hshape, Hlen.
  reflexivity.
Qed.

(** The theorem at the example table and the same table with another
    fourteenth column. *)
Lemma cei_ignores_the_columns_after_the_13th_witness :
  process_data ex_composite_index ex_cei_df
  = process_data ex_composite_index
      (map (fun r => take 13 r ++ [Fin 7]) ex_cei_df).
Proof.
  apply cei_ignores_the_columns_after_the_13th; reflexivity.
Defined.

(** *** The normalisation of finite values *)

Lemma fin_list_not_nan (qs : list Q) :
  Forall (fun d => isnan d = false) (map Fin qs).
Proof.
  apply List.Forall_forall. intros d Hd.
  apply in_map_iff in Hd. destruct Hd as (q & <- & _). reflexivity.
Qed.

Lemma unit_fraction (lo hi q : Q) :
  lo <= q <= hi -> ~ hi == lo -> 0 <= (q - lo) / (hi - lo) <= 1.
Proof.
  intros [Hlo Hhi] Hne.
  assert (Hpos : 0 < hi - lo).
  { destruct (Qlt_le_dec lo hi) as [Hlt|Hge]; [lra|].
    exfalso. apply Hne. lra. }
  split.
  - apply Qle_shift_div_l; [exact Hpos|lra].
  - apply Qle_shift_div_r; [exact Hpos|lra].
Qed.

(** X22. For finite index values the normalisation is the affine map that
    sends the smallest value to 0 and the largest to 1 (all zeros when the
    values are identical); its values lie between 0 and 1, so that the
    clipping of line 84 is not applied. *)
Theorem cei_normalisation_of_finite_indices (qs : list Q) :
  qs <> [] ->
  exists lo hi,
    In lo qs /\ In hi qs
    /\ (forall q, In q qs -> lo <= q <= hi)
    /\ normalize_cindex (map Fin qs)
       = Some (if Qeq_bool hi lo then map (fun _ => Fin 0) qs
               else map (fun q => Fin ((q - lo) / (hi - lo))) qs)
    /\ (~ hi == lo ->
        forall q, In q qs -> 0 <= (q - lo) / (hi - lo) <= 1).
Proof.
  intros Hne.
  destruct (np_min (map Fin qs)) as [m|] eqn:Emin;
    [|destruct qs; [congruence|discriminate]].
  destruct (np_max (map Fin qs)) as [M|] eqn:Emax;
    [|destruct qs; [congruence|discriminate]].
  destruct (np_min_spec _ _ (fin_list_not_nan qs) Emin) as [Hm Hmle].
  destruct (np_max_spec _ _ (fin_list_not_nan qs) Emax) as [HM HMle].
  apply in_map_iff in Hm. destruct Hm as (lo & <- & Hlo).
  apply in_map_iff in HM. destruct HM as (hi & <- & Hhi).
  assert (Hrange : forall q, In q qs -> lo <= q <= hi).
  { intros q Hq.
    pose proof (proj1 (List.Forall_forall _ _) Hmle (Fin q)
                  (in_map Fin _ _ Hq)) as H1.
    pose proof (proj1 (List.Forall_forall _ _) HMle (Fin q)
                  (in_map Fin _ _ Hq)) as H2.
    cbn [fleb] in H1, H2. apply Qle_bool_iff in H1, H2. auto. }
  assert (Hunit : ~ hi == lo ->
                  forall q, In q qs -> 0 <= (q - lo) / (hi - lo) <= 1).
  { intros Hd q Hq. apply unit_fraction; auto. }
  exists lo, hi.
  split; [exact Hlo|]. split; [exact Hhi|]. split; [exact Hrange|].
  split; [|exact Hunit].
  unfold normalize_cindex. rewrite Emin, Emax.
  cbn [mbind option_bind feqb]. rewrite !map_map.
  destruct (Qeq_bool hi lo) eqn:E; cbn [negb].
  - assert (E0 : existsb (fun c => fltb c (Fin 0))
                   (map (fun _ : Q => Fin 0) qs) = false).
    { apply existsb_false. intros c Hc.
      apply in_map_iff in Hc. destruct Hc as (q & <- & _). reflexivity. }
    assert (E1 : existsb (fun c => fltb (Fin 1) c)
                   (map (fun _ : Q => Fin 0) qs) = false).
    { apply existsb_false. intros c Hc.
      apply in_map_iff in Hc. destruct Hc as (q & <- & _). reflexivity. }
    rewrite E0, E1. reflexivity.
  - apply Qeq_bool_false in E.
    assert (Ed : Qeq_bool (hi - lo) 0 = false).
    { apply Qeq_bool_false. intros H. apply E. lra. }
    assert (Emap : map (fun q => fdiv (fsub (Fin q) (Fin lo))
                                      (fsub (Fin hi) (Fin lo))) qs
                   = map (fun q => Fin ((q - lo) / (hi - lo))) qs).
    { apply map_ext. intros q. cbn [fsub fdiv]. rewrite Ed. reflexivity. }
    rewrite Emap.
    assert (E0 : existsb (fun c => fltb c (Fin 0))
                   (map (fun q => Fin ((q - lo) / (hi - lo))) qs) = false).
    { apply existsb_false. intros c Hc.
      apply in_map_iff in Hc. destruct Hc as (q & <- & Hq).
      cbn [fltb]. apply Qltb_ge. apply (Hunit E q Hq). }
    assert (E1 : existsb (fun c => fltb (Fin 1) c)
                   (map (fun q => Fin ((q - lo) / (hi - lo))) qs) = false).
    { apply existsb_false. intros c Hc.
      apply in_map_iff in Hc. destruct Hc as (q & <- & Hq).
      cbn [fltb]. apply Qltb_ge. apply (Hunit E q Hq). }
    rewrite E0, E1. reflexivity.
Qed.

(** The theorem at the index values 24, 60 and 36. *)
Lemma cei_normalisation_of_finite_indices_witness :
  exists lo hi,
    In lo [24; 60; 36] /\ In hi [24; 60; 36]
    /\ normalize_cindex (map Fin [24; 60; 36])
       = Some (if Qeq_bool hi lo then map (fun _ => Fin 0) [24; 60; 36]
               else map (fun q => Fin ((q - lo) / (hi - lo))) [24; 60; 36]).
Proof.
  destruct (cei_normalisation_of_finite_indices [24; 60; 36])
    as (lo & hi & Hlo & Hhi & _ & Hn & _); [discriminate|].
  exists lo, hi. auto.
Defined.
End CompositeIndex.
